(** * firego: the streaming watch (watch.go)

    A shallow embedding of [watch.go]: the frame tokenizer [eventSplit],
    the session operations [Watch] and [StopWatching], and the read loop
    that turns frames into [Event]s.

    Conventions.
    - A [[]byte] is a [list byte]; the nil slice and the empty slice are
      both [[]] (they agree on [len], [range] and [append]).
    - A Go [string] is a [string] (a sequence of bytes).
    - A Go [int] that counts bytes of a slice is a [Z]; it is bounded by
      the slice length, so no wrap-around can occur.
    - Goroutines, channels and the process are modelled by an explicit
      [World] threaded through a small outcome monad. *)

From stdpp Require Import gmap strings list fin_maps.
From Stdlib Require Import ZArith QArith Strings.Byte Ascii String Lia.

Open Scope string_scope.
Open Scope list_scope.
Open Scope Z_scope.

(** ** Bytes and text *)

(** The byte ['\n']. *)
Definition newline : byte := x0a.

(** The string that holds the newline byte alone. *)
Definition NL : string := String (ascii_of_byte newline) EmptyString.

(** Go's [error] values are opaque here; one is identified by its message. *)
Definition error := string.

(** ** The frame tokenizer *)

Module Tokenizer.

(** The body of [for _, b := range data] in [eventSplit], with the three
    loop-carried variables [token], [advance] and [found]. Reaching the
    end of [data] and hitting [break] both leave the loop with the
    current [advance] and [token]. *)
Fixpoint eventSplit_range (data token : list byte) (advance : Z) (found : bool)
  : Z * list byte :=
  match data with
  | [] => (advance, token)
  | b :: data' =>
      let token := token ++ [b] in
      let advance := advance + 1 in
      if Byte.eqb b newline then
        if found then (advance, token)
        else eventSplit_range data' token advance true
      else eventSplit_range data' token advance false
  end.

(** [func eventSplit(data []byte, atEOF bool) (int, []byte, error)].
    [atEOF] is never read. *)
Definition eventSplit (data : list byte) (atEOF : bool)
  : Z * list byte * option error :=
  let '(advance, token) := eventSplit_range data [] 0 false in
  (advance, token, None).

(** Two consecutive newline bytes at offsets [i] and [i+1]. *)
Definition boundary_at (data : list byte) (i : nat) : Prop :=
  data !! i = Some newline ∧ data !! S i = Some newline.

(** The loop invariant of [eventSplit]: [found] is set exactly when the
    byte before the unread part is a newline, so a set [found] with a
    newline ahead would be a boundary across the two parts. [ahead]
    excludes it. *)
Definition ahead (found : bool) (data : list byte) : Prop :=
  found = true → data !! 0%nat ≠ Some newline.

(** The same, as a test. *)
Fixpoint has_boundary (data : list byte) : bool :=
  match data with
  | b :: ((b' :: _) as data') =>
      (Byte.eqb b newline && Byte.eqb b' newline) || has_boundary data'
  | _ => false
  end.

End Tokenizer.

(** ** The functions of package [strings] used by the read loop *)

Module strings.

(** [s[n:]] and [s[:n]]. *)
Fixpoint from (n : nat) (s : string) : string :=
  match n, s with
  | O, _ => s
  | S n', String _ s' => from n' s'
  | S _, EmptyString => EmptyString
  end.

Fixpoint upto (n : nat) (s : string) : string :=
  match n, s with
  | O, _ => EmptyString
  | S n', String c s' => String c (upto n' s')
  | S _, EmptyString => EmptyString
  end.

(** [strings.Index]: offset of the first occurrence of [substr] in [s];
    [None] stands for Go's [-1]. *)
Fixpoint Index (s substr : string) : option nat :=
  if String.prefix substr s then Some 0%nat
  else match s with
       | EmptyString => None
       | String _ s' => S <$> Index s' substr
       end.

(** [strings.Split(s, sep)] for a non-empty [sep]: cut at every
    occurrence of [sep], left to right; the last piece is what remains.
    Each round removes at least one byte, so [S (length s)] rounds are
    never used up. *)
Fixpoint Split_loop (fuel : nat) (s sep : string) : list string :=
  match fuel with
  | O => [s]
  | S fuel' =>
      match Index s sep with
      | None => [s]
      | Some m => upto m s :: Split_loop fuel' (from (m + String.length sep) s) sep
      end
  end.

Definition Split (s sep : string) : list string :=
  Split_loop (S (String.length s)) s sep.

(** [strings.Replace(s, old, new, n)] for a non-empty [old]: the first
    [n] occurrences of [old] are replaced by [new] (all of them when
    [n < 0]). *)
Fixpoint Replace_loop (fuel : nat) (s old new : string) (n : Z) : string :=
  match fuel with
  | O => s
  | S fuel' =>
      if n =? 0 then s
      else match Index s old with
           | None => s
           | Some j =>
               upto j s +:+ new +:+
               Replace_loop fuel' (from (j + String.length old) s) old new (n - 1)
           end
  end.

Definition Replace (s old new : string) (n : Z) : string :=
  if String.eqb old new then s
  else Replace_loop (S (String.length s)) s old new n.

End strings.

(** ** Values, events and channels *)

(** What an [interface{}] holds after [encoding/json] decoded into it:
    [nil], [bool], [float64], [string], [[]interface{}] or
    [map[string]interface{}]. A [float64] is represented by the exact
    rational value of its literal. *)
#[warnings="-register-all"] Inductive Value : Type :=
| VNil
| VBool (b : bool)
| VFloat64 (q : Q)
| VString (s : string)
| VSlice (l : list Value)
| VMap (m : gmap string Value).

(** A variable of type [map[string]interface{}]: [None] is the nil map. *)
Definition GoMap : Type := option (gmap string Value).

(** [data[k]]: the zero value [nil] when the key is absent or the map is nil. *)
Definition map_index (data : GoMap) (k : string) : Value :=
  match data with
  | Some m => default VNil (m !! k)
  | None => VNil
  end.

(** [type Event struct { Type string; Path string; Data interface{} }]. *)
Record Event : Type := mkEvent {
  Type_ : string;
  Path : string;
  Data : Value;
}.

(** The consumer's view of a [chan Event]: the events handed over so far,
    oldest first, and whether [close] was called. *)
Record Chan : Type := mkChan {
  sent : list Event;
  closed : bool;
}.

(** [*http.Request] and [*http.Response], as far as [Watch] touches them. *)
Record Request : Type := mkRequest {
  Method : string;
  Header : list (string * string);
}.

Record Response : Type := mkResponse {
  Body : nat;
}.

Definition Header_Add (req : Request) (k v : string) : Request :=
  {| Method := Method req; Header := Header req ++ [(k, v)] |}.

(** ** The world

    - [watching] is [fb.watching].
    - [stopWatching] is the receive queue of the unbuffered channel
      [fb.stopWatching]: one entry per goroutine parked at
      [<-fb.stopWatching], holding the response body it closes when it
      is woken.
    - [bodiesClosed] collects the bodies on which [Close] was called.
    - [chans] is the store of consumer channels; a [chan Event] value is
      an address into it, and an address without an entry stands for the
      nil channel.
    - [readers] lists the read loops started by [go func() { ... }()],
      each with its response body and its consumer channel.
    - [logged] is what [log.Printf] wrote. *)
Record World : Type := mkWorld {
  watching : bool;
  stopWatching : list nat;
  bodiesClosed : gset nat;
  chans : gmap nat Chan;
  readers : list (nat * nat);
  logged : list string;
}.

(** The run-time panics that this code can raise. *)
Inductive PanicKind : Type :=
| IndexOutOfRange (index len : nat)
| InterfaceConversion (dynamic : Value)
| SendOnClosedChannel
| CloseOfClosedChannel
| CloseOfNilChannel.

(** How a piece of Go code ends: it returns, it panics, it leaves
    through [os.Exit], or it stays blocked for ever. A panic is never
    recovered in this package, so [Panicked] and [Exited] both end the
    whole process. *)
Inductive Outcome (A : Type) : Type :=
| Returned (a : A) (w : World)
| Panicked (p : PanicKind)
| Exited (msg : error)
| Blocked.
Arguments Returned {A} a w.
Arguments Panicked {A} p.
Arguments Exited {A} msg.
Arguments Blocked {A}.

Definition ends_process {A} (o : Outcome A) : Prop :=
  match o with
  | Panicked _ | Exited _ => True
  | Returned _ _ | Blocked => False
  end.

Definition M (A : Type) : Type := World → Outcome A.

Definition ret {A} (a : A) : M A := fun w => Returned a w.

Definition bind {A B} (m : M A) (k : A → M B) : M B :=
  fun w =>
    match m w with
    | Returned a w' => k a w'
    | Panicked p => Panicked p
    | Exited msg => Exited msg
    | Blocked => Blocked
    end.

Definition panic {A} (p : PanicKind) : M A := fun _ => Panicked p.

(** [log.Fatal(err)]: print and [os.Exit(1)]. *)
Definition log_Fatal {A} (err : error) : M A := fun _ => Exited err.

Declare Scope go_scope.
Delimit Scope go_scope with go.
Notation "'do' x <- m ; k" := (bind m (fun x => k))
  (at level 10, x name, m at level 100, k at level 200) : go_scope.
Notation "'run' m ; k" := (bind m (fun _ => k))
  (at level 10, m at level 100, k at level 200) : go_scope.
Open Scope go_scope.

Definition set_watching (b : bool) : M unit := fun w =>
  Returned tt {| watching := b; stopWatching := stopWatching w;
                 bodiesClosed := bodiesClosed w; chans := chans w;
                 readers := readers w; logged := logged w |}.

Definition set_chan (c : nat) (ch : Chan) (w : World) : World :=
  {| watching := watching w; stopWatching := stopWatching w;
     bodiesClosed := bodiesClosed w; chans := <[c := ch]> (chans w);
     readers := readers w; logged := logged w |}.

(** [c <- e] on a consumer channel. The consumer is taken to be
    receiving, so a send on an open channel completes; a send on a
    closed channel panics and a send on the nil channel never returns. *)
Definition chan_send (c : nat) (e : Event) : M unit := fun w =>
  match chans w !! c with
  | None => Blocked
  | Some ch =>
      if closed ch then Panicked SendOnClosedChannel
      else Returned tt (set_chan c {| sent := sent ch ++ [e]; closed := false |} w)
  end.

(** [close(c)]. *)
Definition chan_close (c : nat) : M unit := fun w =>
  match chans w !! c with
  | None => Panicked CloseOfNilChannel
  | Some ch =>
      if closed ch then Panicked CloseOfClosedChannel
      else Returned tt (set_chan c {| sent := sent ch; closed := true |} w)
  end.

(** [fb.stopWatching <- struct{}{}]: the channel is unbuffered, so the
    send completes only by handing the value to a parked receiver, the
    oldest one first; that receiver then runs [resp.Body.Close()]. With
    no receiver the sender stays blocked. *)
Definition stopWatching_send : M unit := fun w =>
  match stopWatching w with
  | [] => Blocked
  | body :: waiting =>
      Returned tt {| watching := watching w; stopWatching := waiting;
                     bodiesClosed := {[body]} ∪ bodiesClosed w;
                     chans := chans w; readers := readers w;
                     logged := logged w |}
  end.

(** The two [go] statements of [Watch]: the read loop is started and,
    as its first effect, so is the goroutine that parks at
    [<-fb.stopWatching]. *)
Definition go_reader (resp : Response) (notifications : nat) : M unit := fun w =>
  Returned tt {| watching := watching w;
                 stopWatching := stopWatching w ++ [Body resp];
                 bodiesClosed := bodiesClosed w; chans := chans w;
                 readers := readers w ++ [(Body resp, notifications)];
                 logged := logged w |}.

Definition log_Printf (line : string) : M unit := fun w =>
  Returned tt {| watching := watching w; stopWatching := stopWatching w;
                 bodiesClosed := bodiesClosed w; chans := chans w;
                 readers := readers w; logged := logged w ++ [line] |}.

(** ** [StopWatching], the read loop and [Watch] *)

(** A Go result pair [(value, err)] of which exactly one part is meaningful. *)
Inductive result (A : Type) : Type :=
| Ok (a : A)
| Err (err : error).
Arguments Ok {A} a.
Arguments Err {A} err.

(** [func (fb *Firebase) StopWatching()]. *)
Definition StopWatching : M unit := fun w =>
  if watching w then
    (run stopWatching_send;
     set_watching false) w
  else Returned tt w.

(** Leaving the [switch]: go round the [for] again, or [break scanning]. *)
Inductive Flow : Type :=
| NextScan
| BreakScanning.

Section Watch.

(** The collaborators.
    - [makeRequest] is [fb.makeRequest(method, body)].
    - [clientDo] is [fb.client.Do(req)].
    - [unmarshal payload] is [json.Unmarshal([]byte(payload), &data)]
      for [var data map[string]interface{}]: the value of [data]
      afterwards, and the error returned. *)
Variable makeRequest : string → option (list byte) → result Request.
Variable clientDo : Request → result Response.
Variable unmarshal : string → GoMap * option error.

(** One round of [for scanner.Scan() { ... }], where [text] is
    [scanner.Text()]. *)
Definition scan_body (notifications : nat) (text : string) : M Flow :=
  let parts := strings.Split text NL in
  match parts !! 0%nat with
  | None => panic (IndexOutOfRange 0 (List.length parts))
  | Some part0 =>
      let event := {| Type_ := strings.Replace part0 "event: " "" 1;
                      Path := ""; Data := VNil |} in
      if String.eqb (Type_ event) "put" || String.eqb (Type_ event) "patch" then
        match parts !! 1%nat with
        | None => panic (IndexOutOfRange 1 (List.length parts))
        | Some part1 =>
            let '(data, err) := unmarshal (strings.Replace part1 "data: " "" 1) in
            match err with
            | Some err => log_Fatal err
            | None =>
                match map_index data "path" with
                | VString path =>
                    let event := {| Type_ := Type_ event; Path := path;
                                    Data := map_index data "data" |} in
                    run chan_send notifications event;
                    ret NextScan
                | v => panic (InterfaceConversion v)
                end
            end
        end
      else if String.eqb (Type_ event) "keep-alive" then
        ret NextScan
      else if String.eqb (Type_ event) "cancel" then
        run chan_send notifications event;
        ret BreakScanning
      else if String.eqb (Type_ event) "auth_revoked" then
        ret NextScan
      else
        ret NextScan
  end.

(** [scanning: for scanner.Scan() { ... }] over the texts that the
    successful calls of [Scan] deliver, in order. *)
Fixpoint scanning (notifications : nat) (frames : list string) : M unit :=
  match frames with
  | [] => ret tt
  | text :: frames' =>
      do flow <- scan_body notifications text;
      match flow with
      | NextScan => scanning notifications frames'
      | BreakScanning => ret tt
      end
  end.

(** The goroutine started by [Watch], from [scanning:] to its end.
    [frames] are the texts scanned before [Scan] returned false (or the
    loop was left) and [scanErr] is [scanner.Err()]. *)
Definition reader (notifications : nat) (frames : list string)
    (scanErr : option error) : M unit :=
  run scanning notifications frames;
  run StopWatching;
  run chan_close notifications;
  match scanErr with
  | Some err => log_Printf ("Error: " +:+ err +:+ NL)
  | None => ret tt
  end.

(** [func (fb *Firebase) Watch(notifications chan Event) error]. *)
Definition Watch (notifications : nat) : M (option error) := fun w =>
  if watching w then
    (run chan_close notifications;
     ret None) w
  else
    match makeRequest "GET" None with
    | Err err => Returned (Some err) w
    | Ok req =>
        let req := Header_Add req "Accept" "text/event-stream" in
        match clientDo req with
        | Err err => Returned (Some err) w
        | Ok resp =>
            (run set_watching true;
             run go_reader resp notifications;
             ret None) w
        end
    end.

End Watch.

(** ** A decoder for the payload line

    [json.Unmarshal] into a [map[string]interface{}], for running the
    read loop on concrete frames. It follows RFC 8259 as [encoding/json]
    does; a number keeps the exact value of its literal, bytes above
    0x7f inside a string are copied as they stand, and the error values
    carry a short description of their own. *)

Module json.

Definition is_space (b : byte) : bool :=
  match b with
  | x20 | x09 | x0d | x0a => true
  | _ => false
  end.

Fixpoint skip_space (data : list byte) : list byte :=
  match data with
  | b :: data' => if is_space b then skip_space data' else data
  | [] => []
  end.

Definition digit (b : byte) : option Z :=
  let n := Z.of_N (Byte.to_N b) in
  if (48 <=? n) && (n <=? 57) then Some (n - 48) else None.

Definition hex (b : byte) : option Z :=
  let n := Z.of_N (Byte.to_N b) in
  if (48 <=? n) && (n <=? 57) then Some (n - 48)
  else if (97 <=? n) && (n <=? 102) then Some (n - 87)
  else if (65 <=? n) && (n <=? 70) then Some (n - 55)
  else None.

(** A run of decimal digits: the value accumulated onto [acc], how many
    digits were read, and what follows them. *)
Fixpoint digits (data : list byte) (acc count : Z) : Z * Z * list byte :=
  match data with
  | b :: data' =>
      match digit b with
      | Some d => digits data' (10 * acc + d) (count + 1)
      | None => (acc, count, data)
      end
  | [] => (acc, count, [])
  end.

(** [m * 10^e] as a reduced fraction. *)
Definition decimal (m e : Z) : Q :=
  if 0 <=? e then Qmake (m * 10 ^ e) 1
  else Qred (Qmake m (Z.to_pos (10 ^ (- e)))).

Definition parse_number (data : list byte) : option (Q * list byte) :=
  let '(negative, data) :=
    match data with
    | x2d :: data' => (true, data')
    | _ => (false, data)
    end in
  let integer :=
    match data with
    | x30 :: data' => Some (0, data')
    | _ => let '(m, count, data') := digits data 0 0 in
           if count =? 0 then None else Some (m, data')
    end in
  match integer with
  | None => None
  | Some (m, data) =>
      let fraction :=
        match data with
        | x2e :: data' =>
            let '(m', count, data'') := digits data' m 0 in
            if count =? 0 then None else Some (m', count, data'')
        | _ => Some (m, 0, data)
        end in
      match fraction with
      | None => None
      | Some (m, scale, data) =>
          let exponent :=
            match data with
            | x65 :: data' | x45 :: data' =>
                let '(minus, data'') :=
                  match data' with
                  | x2d :: r => (true, r)
                  | x2b :: r => (false, r)
                  | _ => (false, data')
                  end in
                let '(e, count, rest) := digits data'' 0 0 in
                if count =? 0 then None
                else Some (if minus then - e else e, rest)
            | _ => Some (0, data)
            end in
          match exponent with
          | None => None
          | Some (e, rest) =>
              Some (decimal (if negative then - m else m) (e - scale), rest)
          end
      end
  end.

(** Four hex digits. *)
Definition getu4 (h1 h2 h3 h4 : byte) : option Z :=
  match hex h1, hex h2, hex h3, hex h4 with
  | Some a, Some b, Some c, Some d => Some (((a * 16 + b) * 16 + c) * 16 + d)
  | _, _, _, _ => None
  end.

Definition byte_of_Z (n : Z) : byte :=
  default x00 (Byte.of_N (Z.to_N (n mod 256))).

(** [utf8.EncodeRune]. *)
Definition EncodeRune (r : Z) : list byte :=
  if r <? 128 then [byte_of_Z r]
  else if r <? 2048 then
    [byte_of_Z (192 + r / 64); byte_of_Z (128 + r mod 64)]
  else if r <? 65536 then
    [byte_of_Z (224 + r / 4096); byte_of_Z (128 + (r / 64) mod 64);
     byte_of_Z (128 + r mod 64)]
  else
    [byte_of_Z (240 + r / 262144); byte_of_Z (128 + (r / 4096) mod 64);
     byte_of_Z (128 + (r / 64) mod 64); byte_of_Z (128 + r mod 64)].

Definition ReplacementChar : Z := 65533.

Definition IsSurrogate (r : Z) : bool := (55296 <=? r) && (r <? 57344).

(** [utf16.DecodeRune]. *)
Definition DecodeRune (r1 r2 : Z) : Z :=
  if (55296 <=? r1) && (r1 <? 56320) && (56320 <=? r2) && (r2 <? 57344)
  then (r1 - 55296) * 1024 + (r2 - 56320) + 65536
  else ReplacementChar.

(** The inside of a string literal, after the opening quote: the decoded
    bytes and what follows the closing quote. *)
Fixpoint parse_string (data acc : list byte) : option (list byte * list byte) :=
  match data with
  | [] => None
  | x22 :: rest => Some (acc, rest)
  | x5c :: esc =>
      match esc with
      | x22 :: rest => parse_string rest (acc ++ [x22])
      | x5c :: rest => parse_string rest (acc ++ [x5c])
      | x2f :: rest => parse_string rest (acc ++ [x2f])
      | x62 :: rest => parse_string rest (acc ++ [x08])
      | x66 :: rest => parse_string rest (acc ++ [x0c])
      | x6e :: rest => parse_string rest (acc ++ [x0a])
      | x72 :: rest => parse_string rest (acc ++ [x0d])
      | x74 :: rest => parse_string rest (acc ++ [x09])
      | x75 :: h1 :: h2 :: h3 :: h4 :: rest =>
          match getu4 h1 h2 h3 h4 with
          | None => None
          | Some rr =>
              if IsSurrogate rr then
                match rest with
                | x5c :: x75 :: l1 :: l2 :: l3 :: l4 :: rest' =>
                    match getu4 l1 l2 l3 l4 with
                    | None => None
                    | Some rr1 =>
                        if DecodeRune rr rr1 =? ReplacementChar
                        then parse_string rest (acc ++ EncodeRune ReplacementChar)
                        else parse_string rest' (acc ++ EncodeRune (DecodeRune rr rr1))
                    end
                | _ => parse_string rest (acc ++ EncodeRune ReplacementChar)
                end
              else parse_string rest (acc ++ EncodeRune rr)
          end
      | _ => None
      end
  | b :: rest =>
      if Z.of_N (Byte.to_N b) <? 32 then None
      else parse_string rest (acc ++ [b])
  end.

(** A value, the members of an object after its opening brace and the
    elements of an array after its opening bracket. Every call reads at
    least one byte before it calls again, so [S (length data)] levels
    are enough for [data]. *)
Fixpoint parse_value (fuel : nat) (data : list byte) : option (Value * list byte) :=
  match fuel with
  | O => None
  | S fuel' =>
      match skip_space data with
      | x7b :: rest =>
          match skip_space rest with
          | x7d :: rest' => Some (VMap ∅, rest')
          | rest' => parse_members fuel' ∅ rest'
          end
      | x5b :: rest =>
          match skip_space rest with
          | x5d :: rest' => Some (VSlice [], rest')
          | rest' => parse_elements fuel' [] rest'
          end
      | x22 :: rest =>
          match parse_string rest [] with
          | Some (s, rest') => Some (VString (string_of_list_byte s), rest')
          | None => None
          end
      | x74 :: x72 :: x75 :: x65 :: rest => Some (VBool true, rest)
      | x66 :: x61 :: x6c :: x73 :: x65 :: rest => Some (VBool false, rest)
      | x6e :: x75 :: x6c :: x6c :: rest => Some (VNil, rest)
      | data' =>
          match parse_number data' with
          | Some (q, rest) => Some (VFloat64 q, rest)
          | None => None
          end
      end
  end
with parse_members (fuel : nat) (m : gmap string Value) (data : list byte)
  : option (Value * list byte) :=
  match fuel with
  | O => None
  | S fuel' =>
      match skip_space data with
      | x22 :: rest =>
          match parse_string rest [] with
          | None => None
          | Some (key, rest1) =>
              match skip_space rest1 with
              | x3a :: rest2 =>
                  match parse_value fuel' rest2 with
                  | None => None
                  | Some (v, rest3) =>
                      let m' := <[string_of_list_byte key := v]> m in
                      match skip_space rest3 with
                      | x2c :: rest4 => parse_members fuel' m' rest4
                      | x7d :: rest4 => Some (VMap m', rest4)
                      | _ => None
                      end
                  end
              | _ => None
              end
          end
      | _ => None
      end
  end
with parse_elements (fuel : nat) (l : list Value) (data : list byte)
  : option (Value * list byte) :=
  match fuel with
  | O => None
  | S fuel' =>
      match parse_value fuel' data with
      | None => None
      | Some (v, rest) =>
          match skip_space rest with
          | x2c :: rest' => parse_elements fuel' (l ++ [v]) rest'
          | x5d :: rest' => Some (VSlice (l ++ [v]), rest')
          | _ => None
          end
      end
  end.

(** [json.Unmarshal(data, &m)] for [var m map[string]interface{}]. An
    object fills a fresh map, [null] leaves the nil map without an
    error, every other value and every ill-formed text is an error. *)
Definition Unmarshal (data : list byte) : GoMap * option error :=
  match parse_value (S (List.length data)) data with
  | None => (None, Some "json: syntax error")
  | Some (v, rest) =>
      match skip_space rest with
      | _ :: _ => (None, Some "json: invalid character after top-level value")
      | [] =>
          match v with
          | VMap m => (Some m, None)
          | VNil => (None, None)
          | _ => (None, Some "json: cannot unmarshal into Go value of type map[string]interface {}")
          end
      end
  end.

End json.

(** [json.Unmarshal([]byte(payload), &data)]. *)
Definition json_Unmarshal (payload : string) : GoMap * option error :=
  json.Unmarshal (list_byte_of_string payload).

(** A string literal of JSON or Go source: [s] between double quotes. *)
Definition quoted (s : string) : string :=
  String (ascii_of_byte x22) (s +:+ String (ascii_of_byte x22) EmptyString).

(** ** The scanner on a buffered stream

    [bufio.Scanner] with [eventSplit] as its split function, when the
    whole stream already sits in the scanner's buffer: every [Scan]
    hands the unread bytes to [eventSplit], delivers the token as
    [scanner.Text()] and skips [advance] bytes, until no byte is left. *)
Fixpoint scan_buffered (fuel : nat) (buf : list byte) : list string :=
  match fuel, buf with
  | O, _ => []
  | _, [] => []
  | S fuel', _ :: _ =>
      let '(advance, token, _) := Tokenizer.eventSplit buf false in
      string_of_list_byte token :: scan_buffered fuel' (drop (Z.to_nat advance) buf)
  end.

Definition scan_stream (stream : string) : list string :=
  let buf := list_byte_of_string stream in
  scan_buffered (List.length buf) buf.

(** ** Notions used by the properties *)

(** The [Type] that the leading line of a frame yields. *)
Definition frame_type (text : string) : string :=
  match strings.Split text NL with
  | part0 :: _ => strings.Replace part0 "event: " "" 1
  | [] => ""
  end.

(** The second line of a frame with its [data: ] prefix stripped, when
    the frame has a second line. *)
Definition frame_payload (text : string) : option string :=
  match strings.Split text NL !! 1%nat with
  | Some part1 => Some (strings.Replace part1 "data: " "" 1)
  | None => None
  end.

(** The event types the [switch] names. *)
Definition vocabulary : list string :=
  ["put"; "patch"; "keep-alive"; "cancel"; "auth_revoked"].

(** The event built from the leading line alone. *)
Definition bare_event (ty : string) : Event :=
  {| Type_ := ty; Path := ""; Data := VNil |}.

(** [c] is a channel that was made and not yet closed. *)
Definition chan_open (c : nat) (w : World) : Prop :=
  ∃ ch, chans w !! c = Some ch ∧ closed ch = false.

(** Whenever the flag is set, a goroutine is parked at
    [<-fb.stopWatching]. *)
Definition session_ok (w : World) : Prop :=
  watching w = true → stopWatching w ≠ [].

(** ** Concrete worlds, collaborators and frames *)

(** A client on which nothing happened yet. *)
Definition new_world : World :=
  {| watching := false; stopWatching := []; bodiesClosed := ∅;
     chans := ∅; readers := []; logged := [] |}.

(** [make(chan Event)], stored at address [c]. *)
Definition make_chan (c : nat) (w : World) : World :=
  set_chan c {| sent := []; closed := false |} w.

Definition makeRequest_ok (method : string) (body : option (list byte))
  : result Request :=
  Ok {| Method := method; Header := [] |}.

Definition makeRequest_fails (method : string) (body : option (list byte))
  : result Request :=
  Err "parse: invalid URL".

Definition clientDo_ok (req : Request) : result Response :=
  Ok {| Body := 7 |}.

Definition clientDo_fails (req : Request) : result Response :=
  Err "dial tcp: connection refused".

(** The payload object with path /a and data 5, and the three frames
    of the put, keep-alive, cancel scenario. *)
Definition payload_a5 : string :=
  "{" +:+ quoted "path" +:+ ":" +:+ quoted "/a" +:+ ","
      +:+ quoted "data" +:+ ":5}".

Definition frame_put_a5 : string :=
  "event: put" +:+ NL +:+ "data: " +:+ payload_a5 +:+ NL +:+ NL.

Definition frame_keep_alive : string := "event: keep-alive" +:+ NL +:+ NL.

Definition frame_cancel : string := "event: cancel" +:+ NL +:+ NL.

Definition event_put_a5 : Event :=
  {| Type_ := "put"; Path := "/a"; Data := VFloat64 5 |}.

Definition event_cancel : Event := bare_event "cancel".

(** An [auth_revoked] frame as the server sends it, a frame of a type
    the [switch] does not name, a put frame cut off after its first
    line, and put frames whose payload is ill-formed, lacks the path, or
    has a path that is not a string. *)
Definition frame_auth_revoked : string :=
  "event: auth_revoked" +:+ NL +:+ "data: " +:+ quoted "credential expired"
    +:+ NL +:+ NL.

Definition frame_unknown : string := "event: rules_debug" +:+ NL +:+ NL.

Definition frame_put_cut : string := "event: put".

Definition frame_put_malformed : string :=
  "event: put" +:+ NL +:+ "data: {" +:+ quoted "path" +:+ ":" +:+ NL +:+ NL.

Definition frame_put_no_path : string :=
  "event: put" +:+ NL +:+ "data: {" +:+ quoted "data" +:+ ":5}" +:+ NL +:+ NL.

Definition frame_patch_numeric_path : string :=
  "event: patch" +:+ NL +:+ "data: {" +:+ quoted "path" +:+ ":1,"
    +:+ quoted "data" +:+ ":5}" +:+ NL +:+ NL.

(** The world once [Watch] succeeded on a fresh client with the fresh
    consumer channel [c]. *)
Definition watching_world (c : nat) : World :=
  match Watch makeRequest_ok clientDo_ok c (make_chan c new_world) with
  | Returned _ w => w
  | _ => new_world
  end.

(** ** Further notions: frames on the wire, the stop queue *)

(** The offset of the first pair of consecutive newline bytes. *)
Fixpoint first_boundary (data : list byte) : option nat :=
  match data with
  | b :: ((b' :: _) as data') =>
      if Byte.eqb b newline && Byte.eqb b' newline then Some 0%nat
      else S <$> first_boundary data'
  | _ => None
  end.

(** The bytes of a frame as the server writes it: every line followed
    by a newline, and one more newline for the blank line. *)
Definition frame_bytes (lines : list (list byte)) : list byte :=
  List.concat (map (λ line, line ++ [newline]) lines) ++ [newline].

(** A line the server writes: not empty and without a newline. *)
Definition wire_line (line : list byte) : Prop :=
  line ≠ [] ∧ Forall (λ b, b ≠ newline) line.

(** The text of a frame with a payload line, and of one without, as
    the comment in the loop shows them. *)
Definition wire_frame (ty payload : string) : string :=
  "event: " +:+ ty +:+ NL +:+ "data: " +:+ payload +:+ NL +:+ NL.

Definition wire_bare (ty : string) : string :=
  "event: " +:+ ty +:+ NL +:+ NL.

(** The stop queue holds exactly the watcher of the watch that set the
    flag, and nothing when the flag is down. *)
Definition session_tight (w : World) : Prop :=
  if watching w then ∃ body, stopWatching w = [body] else stopWatching w = [].

(** A second answer of [fb.client.Do], with a body of its own. *)
Definition clientDo_again (req : Request) : result Response :=
  Ok {| Body := 8 |}.

(** The world a call returned in; for running calls one after another
    on concrete worlds. *)
Definition final_world {A} (o : Outcome A) : World :=
  match o with
  | Returned _ w => w
  | _ => new_world
  end.

(** An idle client again: a first watch on channel 0 was started and
    stopped, and a second watch, on channel 1 with a body of its own,
    is on, while the goroutine of the first has not yet ended. *)
Definition second_watch_world : World :=
  final_world
    (Watch makeRequest_ok clientDo_again 1
       (make_chan 1 (final_world (StopWatching (watching_world 0))))).

(** * Properties *)

(** ** Text *)

Section StringsFacts.

Import strings.

Lemma prefix_length (p s : string) :
  String.prefix p s = true → (String.length p ≤ String.length s)%nat.
Proof.
  revert s. induction p as [|a p IH]; intros s; destruct s as [|b s]; simpl;
    try done; try (intros _; lia).
  destruct (Ascii.ascii_dec a b); [|done].
  intros H%IH. lia.
Qed.

Lemma Index_eq (s sep : string) :
  Index s sep =
    if String.prefix sep s then Some 0%nat
    else match s with
         | EmptyString => None
         | String _ s' => S <$> Index s' sep
         end.
Proof. by destruct s. Qed.

Lemma Index_bound (s sep : string) (m : nat) :
  Index s sep = Some m → (m + String.length sep ≤ String.length s)%nat.
Proof.
  revert m. induction s as [|a s IH]; intros m; rewrite Index_eq;
    destruct (String.prefix sep _) eqn:Hp; try done.
  - intros [= <-]. apply prefix_length in Hp. simpl in *. lia.
  - intros [= <-]. apply prefix_length in Hp. simpl in *. lia.
  - destruct (Index s sep) as [m'|]; [|done].
    simpl. intros [= <-]. specialize (IH m' eq_refl). lia.
Qed.

Lemma length_from (n : nat) (s : string) :
  String.length (from n s) = (String.length s - n)%nat.
Proof.
  revert s. induction n as [|n IH]; intros s; simpl; [lia|].
  destruct s as [|a s]; simpl; [done | apply IH].
Qed.

(** The fuel of [Split] and of [Replace] is never used up: with a
    non-empty separator, any fuel above the length of the text gives
    the same result. *)
Lemma Split_loop_fuel (sep : string) (fuel fuel' : nat) (s : string) :
  sep ≠ "" →
  (String.length s < fuel)%nat → (String.length s < fuel')%nat →
  Split_loop fuel s sep = Split_loop fuel' s sep.
Proof.
  intros Hsep. revert fuel' s.
  induction fuel as [|fuel IH]; intros fuel' s Hf Hf'; [lia|].
  destruct fuel' as [|fuel']; [lia|]. simpl.
  destruct (Index s sep) as [m|] eqn:Hm; [|done].
  apply Index_bound in Hm.
  assert (0 < String.length sep)%nat by (destruct sep; [done | simpl; lia]).
  f_equal. apply IH; rewrite length_from; lia.
Qed.

Lemma Replace_loop_fuel (old new : string) (fuel fuel' : nat) (s : string) (n : Z) :
  old ≠ "" →
  (String.length s < fuel)%nat → (String.length s < fuel')%nat →
  Replace_loop fuel s old new n = Replace_loop fuel' s old new n.
Proof.
  intros Hold. revert fuel' s n.
  induction fuel as [|fuel IH]; intros fuel' s n Hf Hf'; [lia|].
  destruct fuel' as [|fuel']; [lia|]. simpl.
  destruct (n =? 0); [done|].
  destruct (Index s old) as [j|] eqn:Hj; [|done].
  apply Index_bound in Hj.
  assert (0 < String.length old)%nat by (destruct old; [done | simpl; lia]).
  do 2 f_equal. apply IH; rewrite length_from; lia.
Qed.

(** [Split] cuts at the first separator and goes on with what follows it. *)
Lemma Split_cut (s sep : string) (m : nat) :
  sep ≠ "" →
  Index s sep = Some m →
  Split s sep = upto m s :: Split (from (m + String.length sep) s) sep.
Proof.
  intros Hsep Hm. unfold Split.
  change (Split_loop (S (String.length s)) s sep)
    with (match Index s sep with
          | None => [s]
          | Some m => upto m s :: Split_loop (String.length s)
                                    (from (m + String.length sep) s) sep
          end).
  rewrite Hm. f_equal.
  pose proof (Index_bound _ _ _ Hm).
  assert (0 < String.length sep)%nat by (destruct sep; [done | simpl; lia]).
  apply Split_loop_fuel; [done | rewrite length_from; lia | lia].
Qed.

Lemma Split_whole (s sep : string) :
  Index s sep = None → Split s sep = [s].
Proof. intros Hm. unfold Split. cbn [Split_loop]. by rewrite Hm. Qed.

End StringsFacts.

(** ** The tokenizer *)

Section TokenizerFacts.

Import Tokenizer.

Lemma newline_eqb (b : byte) : Byte.eqb b newline = true ↔ b = newline.
Proof. split; [apply Byte.byte_dec_bl | apply Byte.byte_dec_lb]. Qed.

Lemma boundary_at_cons (b : byte) (data : list byte) (i : nat) :
  boundary_at (b :: data) (S i) ↔ boundary_at data i.
Proof. reflexivity. Qed.

Lemma eventSplit_range_whole (data : list byte) :
  ∀ token advance found,
    ahead found data →
    (∀ i, ¬ boundary_at data i) →
    eventSplit_range data token advance found
    = (advance + Z.of_nat (List.length data), token ++ data).
Proof.
  induction data as [|b data IH]; intros token advance found Hahead Hnone; simpl.
  - by rewrite Z.add_0_r, app_nil_r.
  - assert (Hrest : ∀ i, ¬ boundary_at data i).
    { intros i Hi. by apply (Hnone (S i)), boundary_at_cons. }
    destruct (Byte.eqb b newline) eqn:Hb.
    + apply newline_eqb in Hb; subst b.
      destruct found; [by exfalso; apply Hahead|].
      rewrite IH; [f_equal; [lia | by rewrite <- app_assoc]| |done].
      intros _ Hnl. by apply (Hnone 0%nat).
    + rewrite IH; [f_equal; [lia | by rewrite <- app_assoc]|done|done].
Qed.

Lemma eventSplit_range_first (data : list byte) :
  ∀ i token advance found,
    ahead found data →
    boundary_at data i →
    (∀ j, (j < i)%nat → ¬ boundary_at data j) →
    eventSplit_range data token advance found
    = (advance + Z.of_nat (i + 2), token ++ take (i + 2)%nat data).
Proof.
  induction data as [|b data IH]; intros i token advance found Hahead Hi Hfirst.
  - by destruct Hi.
  - simpl. destruct (Byte.eqb b newline) eqn:Hb.
    + apply newline_eqb in Hb; subst b.
      destruct found; [by exfalso; apply Hahead|].
      destruct i as [|i].
      * destruct Hi as [_ Hi]. destruct data as [|b' data]; [done|].
        simpl in Hi. injection Hi as ->. simpl.
        rewrite take_0. f_equal; [lia | by rewrite <- app_assoc].
      * rewrite (IH i).
        -- f_equal; [lia | by rewrite <- app_assoc].
        -- intros _ Hnl. apply (Hfirst 0%nat); [lia | done].
        -- exact Hi.
        -- intros j Hj Hbj. apply (Hfirst (S j)); [lia | exact Hbj].
    + destruct i as [|i].
      * destruct Hi as [Hi _]. simpl in Hi. injection Hi as ->. done.
      * rewrite (IH i).
        -- f_equal; [lia | by rewrite <- app_assoc].
        -- done.
        -- exact Hi.
        -- intros j Hj Hbj. apply (Hfirst (S j)); [lia | exact Hbj].
Qed.

Lemma has_boundary_true (data : list byte) :
  has_boundary data = true ↔ ∃ i, boundary_at data i.
Proof.
  induction data as [|b data IH]; [by split; [|intros [i [H _]]]|].
  destruct data as [|b' data].
  - split; [done | by intros [i [_ H]]].
  - change (has_boundary (b :: b' :: data))
      with ((Byte.eqb b newline && Byte.eqb b' newline) || has_boundary (b' :: data)).
    rewrite orb_true_iff, andb_true_iff, !newline_eqb, IH. split.
    + intros [[-> ->] | [i Hi]]; [by exists 0%nat | by exists (S i)].
    + intros [[|i] Hi].
      * left. destruct Hi as [[= ->] [= ->]]. done.
      * right. by exists i.
Qed.

Lemma has_boundary_false (data : list byte) :
  has_boundary data = false → ∀ i, ¬ boundary_at data i.
Proof.
  intros Hnone i Hi.
  assert (has_boundary data = true) by (apply has_boundary_true; eauto).
  congruence.
Qed.

(** C8. On a byte sequence without two consecutive newline bytes,
    [eventSplit] consumes the whole input and returns it unchanged as the
    frame, with a nil error. *)
Theorem eventSplit_no_boundary (data : list byte) (atEOF : bool) :
  (∀ i, ¬ boundary_at data i) →
  eventSplit data atEOF = (Z.of_nat (List.length data), data, None).
Proof.
  intros Hnone. unfold eventSplit.
  by rewrite eventSplit_range_whole.
Qed.

Lemma eventSplit_no_boundary_witness :
  eventSplit (list_byte_of_string frame_put_cut) true
  = (10, list_byte_of_string frame_put_cut, None).
Proof.
  apply (eventSplit_no_boundary (list_byte_of_string frame_put_cut) true).
  apply has_boundary_false. vm_compute. reflexivity.
Defined.

(** C9. On a byte sequence with exactly one blank-line boundary, at
    offsets [i] and [i+1], [eventSplit] returns the prefix of [i+2]
    bytes that ends with the boundary, and reports [i+2] bytes consumed. *)
Theorem eventSplit_one_boundary (data : list byte) (atEOF : bool) (i : nat) :
  boundary_at data i →
  (∀ j, boundary_at data j → j = i) →
  eventSplit data atEOF
  = (Z.of_nat (i + 2), take (i + 2)%nat data, None).
Proof.
  intros Hi Huniq. unfold eventSplit.
  rewrite (eventSplit_range_first data i); [done|done|done|].
  intros j Hj Hbj. apply Huniq in Hbj. lia.
Qed.

End TokenizerFacts.

(** ** The read loop, one frame at a time *)

Lemma Split_nonempty (s sep : string) :
  ∃ part0 parts, strings.Split s sep = part0 :: parts.
Proof.
  unfold strings.Split. simpl. destruct (strings.Index s sep); eauto.
Qed.

Lemma not_in_vocabulary (ty : string) :
  ty ∉ vocabulary →
  String.eqb ty "put" = false ∧ String.eqb ty "patch" = false
  ∧ String.eqb ty "keep-alive" = false ∧ String.eqb ty "cancel" = false
  ∧ String.eqb ty "auth_revoked" = false.
Proof.
  unfold vocabulary. rewrite !not_elem_of_cons, !String.eqb_neq. tauto.
Qed.

Lemma chan_send_open (c : nat) (e : Event) (w : World) (ch : Chan) :
  chans w !! c = Some ch → closed ch = false →
  chan_send c e w
  = Returned tt (set_chan c {| sent := sent ch ++ [e]; closed := false |} w).
Proof. intros Hc Hopen. unfold chan_send. by rewrite Hc, Hopen. Qed.

Lemma chan_close_open (c : nat) (w : World) (ch : Chan) :
  chans w !! c = Some ch → closed ch = false →
  chan_close c w
  = Returned tt (set_chan c {| sent := sent ch; closed := true |} w).
Proof. intros Hc Hopen. unfold chan_close. by rewrite Hc, Hopen. Qed.

Section ScanBody.

Variable unmarshal : string → GoMap * option error.

(** [scan_body] in terms of the type and the payload of the frame. *)
Lemma scan_body_eq (c : nat) (text : string) :
  scan_body unmarshal c text =
    let ty := frame_type text in
    if String.eqb ty "put" || String.eqb ty "patch" then
      match frame_payload text with
      | None => panic (IndexOutOfRange 1 (List.length (strings.Split text NL)))
      | Some payload =>
          let '(data, err) := unmarshal payload in
          match err with
          | Some err => log_Fatal err
          | None =>
              match map_index data "path" with
              | VString path =>
                  run chan_send c {| Type_ := ty; Path := path;
                                     Data := map_index data "data" |};
                  ret NextScan
              | v => panic (InterfaceConversion v)
              end
          end
      end
    else if String.eqb ty "keep-alive" then ret NextScan
    else if String.eqb ty "cancel" then
      run chan_send c (bare_event ty);
      ret BreakScanning
    else ret NextScan.
Proof.
  unfold scan_body, frame_type, frame_payload.
  destruct (Split_nonempty text NL) as (part0 & parts & ->). simpl.
  destruct (String.eqb _ "put" || String.eqb _ "patch").
  - by destruct (parts !! 0%nat).
  - by repeat case_match.
Qed.

End ScanBody.

Section Dispatch.

Variable unmarshal : string → GoMap * option error.

Lemma scanning_next (c : nat) (text : string) (frames : list string) (w w' : World) :
  scan_body unmarshal c text w = Returned NextScan w' →
  scanning unmarshal c (text :: frames) w = scanning unmarshal c frames w'.
Proof. intros H. simpl. unfold bind. by rewrite H. Qed.

Lemma scanning_break (c : nat) (text : string) (frames : list string) (w w' : World) :
  scan_body unmarshal c text w = Returned BreakScanning w' →
  scanning unmarshal c (text :: frames) w = Returned tt w'.
Proof. intros H. simpl. unfold bind. by rewrite H. Qed.

Lemma scanning_exited (c : nat) (text : string) (frames : list string) (w : World) (err : error) :
  scan_body unmarshal c text w = Exited err →
  scanning unmarshal c (text :: frames) w = Exited err.
Proof. intros H. simpl. unfold bind. by rewrite H. Qed.

Lemma scanning_panicked (c : nat) (text : string) (frames : list string) (w : World) (p : PanicKind) :
  scan_body unmarshal c text w = Panicked p →
  scanning unmarshal c (text :: frames) w = Panicked p.
Proof. intros H. simpl. unfold bind. by rewrite H. Qed.

Lemma reader_exited (c : nat) (frames : list string) (scanErr : option error) (w : World) (err : error) :
  scanning unmarshal c frames w = Exited err →
  reader unmarshal c frames scanErr w = Exited err.
Proof. intros H. unfold reader, bind. by rewrite H. Qed.

Lemma reader_panicked (c : nat) (frames : list string) (scanErr : option error) (w : World) (p : PanicKind) :
  scanning unmarshal c frames w = Panicked p →
  reader unmarshal c frames scanErr w = Panicked p.
Proof. intros H. unfold reader, bind. by rewrite H. Qed.

Lemma scan_body_keep_alive (c : nat) (text : string) (w : World) :
  frame_type text = "keep-alive" →
  scan_body unmarshal c text w = Returned NextScan w.
Proof. intros Hty. rewrite scan_body_eq. simpl. by rewrite Hty. Qed.

Lemma scan_body_auth_revoked (c : nat) (text : string) (w : World) :
  frame_type text = "auth_revoked" →
  scan_body unmarshal c text w = Returned NextScan w.
Proof. intros Hty. rewrite scan_body_eq. simpl. by rewrite Hty. Qed.

Lemma scan_body_cancel (c : nat) (text : string) (w : World) (ch : Chan) :
  frame_type text = "cancel" →
  chans w !! c = Some ch → closed ch = false →
  scan_body unmarshal c text w
  = Returned BreakScanning
      (set_chan c {| sent := sent ch ++ [bare_event "cancel"]; closed := false |} w).
Proof.
  intros Hty Hc Hopen. rewrite scan_body_eq. simpl. rewrite Hty. simpl.
  unfold bind. by rewrite (chan_send_open c _ w ch).
Qed.

Lemma scan_body_put_patch (c : nat) (text payload path : string) (data : GoMap)
    (w : World) (ch : Chan) :
  frame_type text = "put" ∨ frame_type text = "patch" →
  frame_payload text = Some payload →
  unmarshal payload = (data, None) →
  map_index data "path" = VString path →
  chans w !! c = Some ch → closed ch = false →
  scan_body unmarshal c text w
  = Returned NextScan
      (set_chan c {| sent := sent ch ++ [{| Type_ := frame_type text; Path := path;
                                           Data := map_index data "data" |}];
                     closed := false |} w).
Proof.
  intros Hty Hpay Hun Hpath Hc Hopen. rewrite scan_body_eq. simpl.
  assert (String.eqb (frame_type text) "put" || String.eqb (frame_type text) "patch" = true) as ->.
  { destruct Hty as [-> | ->]; reflexivity. }
  rewrite Hpay, Hun, Hpath. unfold bind.
  by rewrite (chan_send_open c _ w ch).
Qed.

(** C1, as the code has it. A frame whose type is outside the
    vocabulary is dropped: nothing is sent on the consumer channel, the
    world is unchanged, and the loop goes on with the next frame. *)
Theorem unknown_type_dropped (c : nat) (text : string) (frames : list string) (w : World) :
  frame_type text ∉ vocabulary →
  scan_body unmarshal c text w = Returned NextScan w
  ∧ scanning unmarshal c (text :: frames) w = scanning unmarshal c frames w.
Proof.
  intros (Hput & Hpatch & Hkeep & Hcancel & Hauth)%not_in_vocabulary.
  assert (H : scan_body unmarshal c text w = Returned NextScan w).
  { rewrite scan_body_eq. simpl. by rewrite Hput, Hpatch, Hkeep, Hcancel. }
  split; [exact H | by apply scanning_next].
Qed.

(** C7. A put or patch frame whose payload line does not decode,
    without error, to an object ends the whole process: by [log.Fatal]
    whenever [json.Unmarshal] returns an error, and otherwise (the
    payload [null]) by the panic of the type assertion. No event is
    forwarded, the loop does not go on and the goroutine never reaches
    its clean-up. *)
Theorem malformed_payload_ends_process (c : nat) (text payload : string)
    (frames : list string) (scanErr : option error) (w : World) :
  frame_type text = "put" ∨ frame_type text = "patch" →
  frame_payload text = Some payload →
  (∀ m, unmarshal payload ≠ (Some m, None)) →
  ends_process (scan_body unmarshal c text w)
  ∧ ends_process (reader unmarshal c (text :: frames) scanErr w)
  ∧ (∀ data err, unmarshal payload = (data, Some err) →
       scan_body unmarshal c text w = Exited err
       ∧ reader unmarshal c (text :: frames) scanErr w = Exited err).
Proof.
  intros Hty Hpay Hbad.
  assert (Hsw : String.eqb (frame_type text) "put" || String.eqb (frame_type text) "patch" = true).
  { destruct Hty as [-> | ->]; reflexivity. }
  assert (Hbody : scan_body unmarshal c text w =
                  match unmarshal payload with
                  | (_, Some err) => Exited err
                  | (_, None) => Panicked (InterfaceConversion VNil)
                  end).
  { rewrite scan_body_eq. simpl. rewrite Hsw, Hpay.
    destruct (unmarshal payload) as [data [err|]] eqn:Hun; [done|].
    destruct data as [m|]; [by destruct (Hbad m) | done]. }
  destruct (unmarshal payload) as [data [err|]] eqn:Hun.
  - assert (Hr : reader unmarshal c (text :: frames) scanErr w = Exited err).
    { by apply reader_exited, scanning_exited. }
    rewrite Hbody, Hr. split; [done|]. split; [done|].
    by intros data' err' [= _ <-].
  - assert (Hr : reader unmarshal c (text :: frames) scanErr w
                 = Panicked (InterfaceConversion VNil)).
    { by apply reader_panicked, scanning_panicked. }
    rewrite Hbody, Hr. split; [done|]. split; [done|].
    by intros data' err' [=].
Qed.

(** C10. With the consumer channel open, the handler of a put or patch
    frame returns exactly when the frame has a second line whose payload
    decodes to an object with a string under the key path. A frame of a
    single line panics with index 1 out of range for length 1, and a
    payload that decodes without error but has no string under path
    panics at the type assertion. *)
Theorem put_patch_total_iff (c : nat) (text : string) (w : World) :
  frame_type text = "put" ∨ frame_type text = "patch" →
  chan_open c w →
  ((∃ flow w', scan_body unmarshal c text w = Returned flow w')
   ↔ (∃ payload m path,
        frame_payload text = Some payload
        ∧ unmarshal payload = (Some m, None)
        ∧ m !! "path" = Some (VString path)))
  ∧ (List.length (strings.Split text NL) = 1%nat →
     scan_body unmarshal c text w = Panicked (IndexOutOfRange 1 1))
  ∧ (∀ payload data,
       frame_payload text = Some payload →
       unmarshal payload = (data, None) →
       (∀ path, map_index data "path" ≠ VString path) →
       scan_body unmarshal c text w
       = Panicked (InterfaceConversion (map_index data "path"))).
Proof.
  intros Hty (ch & Hc & Hopen).
  assert (Hsw : String.eqb (frame_type text) "put" || String.eqb (frame_type text) "patch" = true).
  { destruct Hty as [-> | ->]; reflexivity. }
  split; [split|split].
  - intros (flow & w' & Hret). rewrite scan_body_eq in Hret. simpl in Hret.
    rewrite Hsw in Hret.
    destruct (frame_payload text) as [payload|]; [|done].
    destruct (unmarshal payload) as [data [err|]] eqn:Hun; [done|].
    destruct (map_index data "path") as [| | |path| |] eqn:Hpath; try done.
    destruct data as [m|]; [|done]. simpl in Hpath.
    exists payload, m, path. repeat split; [done|].
    destruct (m !! "path") as [v|]; simpl in Hpath; by subst.
  - intros (payload & m & path & Hpay & Hun & Hpath).
    eexists _, _. eapply scan_body_put_patch; try done.
    simpl. by rewrite Hpath.
  - intros Hlen. rewrite scan_body_eq. simpl. rewrite Hsw, Hlen.
    unfold frame_payload.
    destruct (strings.Split text NL) as [|part0 [|part1 parts]]; done.
  - intros payload data Hpay Hun Hnot. rewrite scan_body_eq. simpl.
    rewrite Hsw, Hpay, Hun.
    destruct (map_index data "path") as [| | |path| |] eqn:Hpath; try done.
    by destruct (Hnot path).
Qed.

End Dispatch.

(** ** The session *)

Lemma chans_set_chan_eq (c : nat) (ch : Chan) (w : World) :
  chans (set_chan c ch w) !! c = Some ch.
Proof. apply lookup_insert_eq. Qed.

Lemma chans_set_chan_ne (c c' : nat) (ch : Chan) (w : World) :
  c' ≠ c → chans (set_chan c ch w) !! c' = chans w !! c'.
Proof. intros Hne. simpl. by rewrite lookup_insert_ne. Qed.

Lemma session_ok_new_world : session_ok new_world.
Proof. intros Hon. discriminate Hon. Qed.

Lemma StopWatching_off (w : World) :
  watching w = false → StopWatching w = Returned tt w.
Proof. intros Hoff. unfold StopWatching. by rewrite Hoff. Qed.

(** What one call of [StopWatching] does to a world in which the flag
    is backed by a parked receiver. *)
Lemma StopWatching_returns (w : World) :
  session_ok w →
  ∃ w', StopWatching w = Returned tt w'
        ∧ watching w' = false
        ∧ chans w' = chans w
        ∧ readers w' = readers w
        ∧ logged w' = logged w
        ∧ (watching w = false → w' = w).
Proof.
  intros Hok. unfold StopWatching, session_ok in *.
  destruct (watching w) eqn:Hw.
  - destruct (stopWatching w) as [|body waiting] eqn:Hq; [by destruct Hok|].
    unfold bind, stopWatching_send. rewrite Hq. simpl.
    eexists. repeat split; done.
  - exists w. repeat split; done.
Qed.

Lemma session_ok_StopWatching (w w' : World) :
  StopWatching w = Returned tt w' → watching w' = false ∧ session_ok w'.
Proof.
  unfold StopWatching, session_ok. destruct (watching w) eqn:Hw.
  - unfold bind, stopWatching_send.
    destruct (stopWatching w); [done|]. simpl. intros [= <-]. simpl.
    split; [done | by intros].
  - intros [= <-]. rewrite Hw. split; [done | by intros].
Qed.

(** C6. In a world where the flag, if set, is backed by the parked
    receiver, two calls of [StopWatching] in a row both return: neither
    blocks or panics. After the first the flag is false, so the second
    takes the guarded path and leaves the world as it is; and when the
    flag is false to begin with, so does the first: no send, no change
    of state. *)
Theorem StopWatching_idempotent (w : World) :
  session_ok w →
  ∃ w1, StopWatching w = Returned tt w1
        ∧ watching w1 = false
        ∧ StopWatching w1 = Returned tt w1
        ∧ (watching w = false → w1 = w).
Proof.
  intros Hok.
  destruct (StopWatching_returns w Hok) as (w1 & Hret & Hoff & _ & _ & _ & Hsame).
  exists w1. repeat split; try done. by apply StopWatching_off.
Qed.

Section WatchFacts.

Variable makeRequest : string → option (list byte) → result Request.
Variable clientDo : Request → result Response.

(** C4. A call of [Watch] while the flag is set closes the channel it
    was given and returns nil. The flag, the stop channel and every
    other consumer channel, the one of the running watch among them,
    stay as they were; no second read loop is started. *)
Theorem Watch_while_watching (c : nat) (w : World) (ch : Chan) :
  watching w = true →
  chans w !! c = Some ch → closed ch = false →
  ∃ w', Watch makeRequest clientDo c w = Returned None w'
        ∧ chans w' !! c = Some {| sent := sent ch; closed := true |}
        ∧ watching w' = true
        ∧ stopWatching w' = stopWatching w
        ∧ (∀ c1, c1 ≠ c → chans w' !! c1 = chans w !! c1)
        ∧ readers w' = readers w
        ∧ bodiesClosed w' = bodiesClosed w.
Proof.
  intros Hon Hc Hopen.
  exists (set_chan c {| sent := sent ch; closed := true |} w).
  split.
  - unfold Watch. rewrite Hon. unfold bind.
    by rewrite (chan_close_open c w ch).
  - split; [apply chans_set_chan_eq|].
    repeat split; try done.
    intros c1 Hne. by apply chans_set_chan_ne.
Qed.

(** C5. When the flag is false and building the request fails, or
    building succeeds and executing the request (with the accept header
    added) fails, [Watch] returns that error and the world is the one it
    was called in: no read loop started, nothing sent, the channel not
    closed, the flag still false. *)
Theorem Watch_setup_error (c : nat) (w : World) (err : error) :
  watching w = false →
  makeRequest "GET" None = Err err
  ∨ (∃ req, makeRequest "GET" None = Ok req
            ∧ clientDo (Header_Add req "Accept" "text/event-stream") = Err err) →
  Watch makeRequest clientDo c w = Returned (Some err) w.
Proof.
  intros Hoff [Hmk | (req & Hmk & Hdo)]; unfold Watch; rewrite Hoff, Hmk.
  - done.
  - by rewrite Hdo.
Qed.

(** The successful path of [Watch]. *)
Lemma Watch_success (c : nat) (w : World) (req : Request) (resp : Response) :
  watching w = false →
  makeRequest "GET" None = Ok req →
  clientDo (Header_Add req "Accept" "text/event-stream") = Ok resp →
  Watch makeRequest clientDo c w
  = Returned None
      {| watching := true;
         stopWatching := stopWatching w ++ [Body resp];
         bodiesClosed := bodiesClosed w; chans := chans w;
         readers := readers w ++ [(Body resp, c)];
         logged := logged w |}.
Proof.
  intros Hoff Hmk Hdo. unfold Watch. by rewrite Hoff, Hmk, Hdo.
Qed.

Lemma session_ok_Watch (c : nat) (w w' : World) (r : option error) :
  session_ok w →
  Watch makeRequest clientDo c w = Returned r w' → session_ok w'.
Proof.
  unfold Watch, session_ok. intros Hok.
  destruct (watching w) eqn:Hon.
  - unfold bind, chan_close. destruct (chans w !! c) as [ch|]; [|done].
    destruct (closed ch); [done|]. simpl. intros [= _ <-]. simpl. auto.
  - destruct (makeRequest "GET" None) as [req|e].
    + destruct (clientDo _) as [resp|e].
      * intros [= _ <-]. simpl. intros _. by destruct (stopWatching w).
      * intros [= _ <-]. by rewrite Hon.
    + intros [= _ <-]. by rewrite Hon.
Qed.

End WatchFacts.

(** ** The goroutine as a whole *)

Section ReaderFacts.

Variable unmarshal : string → GoMap * option error.

Lemma session_ok_set_chan (c : nat) (ch : Chan) (w : World) :
  session_ok w → session_ok (set_chan c ch w).
Proof. done. Qed.

(** Once the loop is left with the consumer channel open, the clean-up
    resets the flag and closes the channel; the events sent stay. *)
Lemma reader_clean_up (c : nat) (frames : list string) (scanErr : option error)
    (w w2 : World) (ch2 : Chan) :
  scanning unmarshal c frames w = Returned tt w2 →
  session_ok w2 →
  chans w2 !! c = Some ch2 → closed ch2 = false →
  ∃ w', reader unmarshal c frames scanErr w = Returned tt w'
        ∧ chans w' = <[c := {| sent := sent ch2; closed := true |}]> (chans w2)
        ∧ watching w' = false.
Proof.
  intros Hscan Hok Hc Hopen.
  destruct (StopWatching_returns w2 Hok) as (w3 & Hstop & Hoff & Hchans & _).
  unfold reader, bind. rewrite Hscan, Hstop.
  rewrite (chan_close_open c w3 ch2); [|by rewrite Hchans|done].
  destruct scanErr as [err|]; simpl; eexists; (split; [done|]); simpl;
    by rewrite Hchans, Hoff.
Qed.

Lemma scan_body_session (c : nat) (text : string) (w w' : World) (flow : Flow) :
  scan_body unmarshal c text w = Returned flow w' →
  watching w' = watching w ∧ stopWatching w' = stopWatching w.
Proof.
  rewrite scan_body_eq. simpl. unfold bind, chan_send, ret, panic, log_Fatal.
  repeat case_match; simplify_eq; try done; by intros [= _ <-].
Qed.

Lemma scanning_session (c : nat) (frames : list string) (w w' : World) :
  scanning unmarshal c frames w = Returned tt w' →
  watching w' = watching w ∧ stopWatching w' = stopWatching w.
Proof.
  revert w. induction frames as [|text frames IH]; intros w; simpl.
  - by intros [= <-].
  - unfold bind. destruct (scan_body unmarshal c text w) as [flow w1| | |] eqn:Hb;
      try done.
    apply scan_body_session in Hb as [Hw Hq].
    destruct flow.
    + intros [Hw' Hq']%IH. by rewrite Hw', Hq'.
    + by intros [= <-].
Qed.

(** [session_ok] holds of [new_world] and is kept by [Watch], by
    [StopWatching] and by the read loop, so it holds in every world
    that these operations, run one after the other, can reach. *)
Lemma session_ok_reader (c : nat) (frames : list string) (scanErr : option error)
    (w w' : World) :
  reader unmarshal c frames scanErr w = Returned tt w' → session_ok w'.
Proof.
  unfold reader, bind.
  destruct (scanning unmarshal c frames w) as [[] w1| | |]; try done.
  destruct (StopWatching w1) as [[] w2| | |] eqn:Hstop; try done.
  apply session_ok_StopWatching in Hstop as [Hoff _].
  unfold chan_close. destruct (chans w2 !! c) as [ch|]; [|done].
  destruct (closed ch); [done|].
  destruct scanErr; intros [= <-]; intros Hon; simpl in Hon; congruence.
Qed.

(** C3. The frames put (path /a, data 5), keep-alive, cancel, whatever
    follows them on the stream: the consumer channel receives the put
    event and then the bare cancel event, nothing for the keep-alive
    frame and nothing after the cancel frame, and is then closed; the
    flag is false afterwards and no other channel is touched. *)
Theorem scenario_put_keep_alive_cancel (c : nat) (w : World) (ch : Chan)
    (more : list string) (scanErr : option error) :
  unmarshal payload_a5
  = (Some (<["path" := VString "/a"]> (<["data" := VFloat64 5]> ∅)), None) →
  chans w !! c = Some ch → closed ch = false →
  session_ok w →
  ∃ w', reader unmarshal c
          ([frame_put_a5; frame_keep_alive; frame_cancel] ++ more) scanErr w
        = Returned tt w'
        ∧ chans w' !! c
          = Some {| sent := sent ch ++ [event_put_a5; event_cancel];
                    closed := true |}
        ∧ watching w' = false
        ∧ (∀ c', c' ≠ c → chans w' !! c' = chans w !! c').
Proof.
  intros Hun Hc Hopen Hok.
  set (ch1 := {| sent := sent ch ++ [event_put_a5]; closed := false |}).
  set (ch2 := {| sent := sent ch1 ++ [event_cancel]; closed := false |}).
  assert (Hput : scan_body unmarshal c frame_put_a5 w
                 = Returned NextScan (set_chan c ch1 w)).
  { by rewrite (scan_body_put_patch unmarshal c frame_put_a5 payload_a5 "/a" _ w ch
               (or_introl eq_refl) eq_refl Hun eq_refl Hc Hopen). }
  assert (Hkeep : scan_body unmarshal c frame_keep_alive (set_chan c ch1 w)
                  = Returned NextScan (set_chan c ch1 w)).
  { by apply scan_body_keep_alive. }
  assert (Hcancel : scan_body unmarshal c frame_cancel (set_chan c ch1 w)
                    = Returned BreakScanning (set_chan c ch2 (set_chan c ch1 w))).
  { apply (scan_body_cancel unmarshal c frame_cancel _ ch1);
      [done | apply chans_set_chan_eq | done]. }
  assert (Hscan : scanning unmarshal c
                    ([frame_put_a5; frame_keep_alive; frame_cancel] ++ more) w
                  = Returned tt (set_chan c ch2 (set_chan c ch1 w))).
  { simpl app.
    rewrite (scanning_next _ _ _ _ _ _ Hput), (scanning_next _ _ _ _ _ _ Hkeep).
    by apply scanning_break. }
  destruct (reader_clean_up c _ scanErr w _ ch2 Hscan) as (w' & Hr & Hchans & Hoff);
    [by repeat apply session_ok_set_chan | apply chans_set_chan_eq | done |].
  exists w'. split; [done|]. rewrite Hchans. split; [|split; [done|]].
  - rewrite lookup_insert_eq. subst ch2 ch1. simpl. by rewrite <- app_assoc.
  - intros c' Hne. simpl. by rewrite !lookup_insert_ne.
Qed.

End ReaderFacts.

(** ** The properties on concrete frames *)

(** The tokenizer cuts the stream of the scenario into its three frames. *)
Lemma scan_stream_scenario :
  scan_stream (frame_put_a5 +:+ frame_keep_alive +:+ frame_cancel)
  = [frame_put_a5; frame_keep_alive; frame_cancel].
Proof. vm_compute. reflexivity. Qed.

Lemma json_Unmarshal_payload_a5 :
  json_Unmarshal payload_a5
  = (Some (<["path" := VString "/a"]> (<["data" := VFloat64 5]> ∅)), None).
Proof. vm_compute. reflexivity. Qed.

Lemma watching_world_eq (c : nat) :
  watching_world c
  = {| watching := true; stopWatching := [7%nat]; bodiesClosed := ∅;
       chans := {[ c := {| sent := []; closed := false |} ]};
       readers := [(7%nat, c)]; logged := [] |}.
Proof. reflexivity. Qed.

Lemma session_ok_watching_world (c : nat) : session_ok (watching_world c).
Proof. intros _. discriminate. Qed.

Lemma eventSplit_one_boundary_witness :
  Tokenizer.eventSplit
    (list_byte_of_string (frame_cancel +:+ "event: put" +:+ NL)) false
  = (15, list_byte_of_string frame_cancel, None).
Proof.
  apply (eventSplit_one_boundary
           (list_byte_of_string (frame_cancel +:+ "event: put" +:+ NL)) false 13).
  - split; reflexivity.
  - intros j [H1 H2].
    do 26 (destruct j as [|j]; [first [discriminate H1 | discriminate H2 | reflexivity]|]).
    discriminate H1.
Defined.

Lemma unknown_type_dropped_witness :
  scan_body json_Unmarshal 0 frame_unknown (watching_world 0)
  = Returned NextScan (watching_world 0)
  ∧ scanning json_Unmarshal 0 [frame_unknown; frame_cancel] (watching_world 0)
    = scanning json_Unmarshal 0 [frame_cancel] (watching_world 0).
Proof.
  apply (unknown_type_dropped json_Unmarshal 0 frame_unknown [frame_cancel]
           (watching_world 0)).
  apply (bool_decide_unpack _). vm_compute. exact I.
Defined.

(** C1, as stated, fails: on a frame of type rules_debug, with the
    consumer channel open, the loop body returns with the world as it
    was, and the channel holds no event, where forwarding would have
    appended the bare event. *)
Lemma unknown_type_counterexample :
  frame_type frame_unknown = "rules_debug"
  ∧ ("rules_debug" ∉ vocabulary)
  ∧ chans (watching_world 0) !! 0%nat = Some {| sent := []; closed := false |}
  ∧ scan_body json_Unmarshal 0 frame_unknown (watching_world 0)
    = Returned NextScan (watching_world 0)
  ∧ scan_body json_Unmarshal 0 frame_unknown (watching_world 0)
    ≠ Returned NextScan
        (set_chan 0 {| sent := [bare_event "rules_debug"]; closed := false |}
           (watching_world 0)).
Proof.
  split; [reflexivity|]. split; [apply (bool_decide_unpack _); vm_compute; exact I|].
  split; [reflexivity|]. split; [reflexivity|].
  intros H. apply (f_equal (λ o, match o with
                                 | Returned _ w => sent <$> chans w !! 0%nat
                                 | _ => None
                                 end)) in H.
  vm_compute in H. discriminate H.
Qed.

(** C2, on the code. An [auth_revoked] frame is not forwarded and does
    not end the loop: the loop body returns with the world as it was,
    and a put frame that follows it is still delivered. The cancel
    frame, by contrast, is sent and leaves the loop. *)
Theorem auth_revoked_not_forwarded :
  frame_type frame_auth_revoked = "auth_revoked"
  ∧ scan_body json_Unmarshal 0 frame_auth_revoked (watching_world 0)
    = Returned NextScan (watching_world 0)
  ∧ scanning json_Unmarshal 0 [frame_auth_revoked; frame_put_a5] (watching_world 0)
    = Returned tt
        (set_chan 0 {| sent := [event_put_a5]; closed := false |} (watching_world 0))
  ∧ scanning json_Unmarshal 0 [frame_cancel; frame_put_a5] (watching_world 0)
    = Returned tt
        (set_chan 0 {| sent := [event_cancel]; closed := false |} (watching_world 0)).
Proof. repeat split; vm_compute; reflexivity. Qed.

Lemma scenario_put_keep_alive_cancel_witness :
  ∃ w', reader json_Unmarshal 0
          ([frame_put_a5; frame_keep_alive; frame_cancel] ++ []) None
          (watching_world 0)
        = Returned tt w'
        ∧ chans w' !! 0%nat
          = Some {| sent := [] ++ [event_put_a5; event_cancel]; closed := true |}
        ∧ watching w' = false
        ∧ (∀ c', c' ≠ 0%nat → chans w' !! c' = chans (watching_world 0) !! c').
Proof.
  apply (scenario_put_keep_alive_cancel json_Unmarshal 0 (watching_world 0)
           {| sent := []; closed := false |} [] None).
  - vm_compute. reflexivity.
  - reflexivity.
  - reflexivity.
  - intros _. discriminate.
Defined.

Lemma StopWatching_idempotent_witness :
  ∃ w1, StopWatching (watching_world 0) = Returned tt w1
        ∧ watching w1 = false
        ∧ StopWatching w1 = Returned tt w1
        ∧ (watching (watching_world 0) = false → w1 = watching_world 0).
Proof.
  apply (StopWatching_idempotent (watching_world 0)).
  intros _. discriminate.
Defined.

Lemma Watch_while_watching_witness :
  ∃ w', Watch makeRequest_ok clientDo_ok 1 (make_chan 1 (watching_world 0))
        = Returned None w'
        ∧ chans w' !! 1%nat = Some {| sent := []; closed := true |}
        ∧ watching w' = true
        ∧ stopWatching w' = stopWatching (make_chan 1 (watching_world 0))
        ∧ (∀ c1, c1 ≠ 1%nat →
             chans w' !! c1 = chans (make_chan 1 (watching_world 0)) !! c1)
        ∧ readers w' = readers (make_chan 1 (watching_world 0))
        ∧ bodiesClosed w' = bodiesClosed (make_chan 1 (watching_world 0)).
Proof.
  apply (Watch_while_watching makeRequest_ok clientDo_ok 1
           (make_chan 1 (watching_world 0)) {| sent := []; closed := false |});
    reflexivity.
Defined.

Lemma Watch_setup_error_witness :
  Watch makeRequest_fails clientDo_ok 0 (make_chan 0 new_world)
  = Returned (Some "parse: invalid URL") (make_chan 0 new_world)
  ∧ Watch makeRequest_ok clientDo_fails 0 (make_chan 0 new_world)
    = Returned (Some "dial tcp: connection refused") (make_chan 0 new_world).
Proof.
  split.
  - apply (Watch_setup_error makeRequest_fails clientDo_ok 0 (make_chan 0 new_world)
             "parse: invalid URL"); [reflexivity | left; reflexivity].
  - apply (Watch_setup_error makeRequest_ok clientDo_fails 0 (make_chan 0 new_world)
             "dial tcp: connection refused"); [reflexivity|].
    right. exists {| Method := "GET"; Header := [] |}. split; reflexivity.
Defined.

Lemma malformed_payload_ends_process_witness :
  ends_process (scan_body json_Unmarshal 0 frame_put_malformed (watching_world 0))
  ∧ ends_process (reader json_Unmarshal 0 (frame_put_malformed :: [frame_cancel])
                    None (watching_world 0))
  ∧ (∀ data err,
       json_Unmarshal ("{" +:+ quoted "path" +:+ ":") = (data, Some err) →
       scan_body json_Unmarshal 0 frame_put_malformed (watching_world 0) = Exited err
       ∧ reader json_Unmarshal 0 (frame_put_malformed :: [frame_cancel]) None
           (watching_world 0) = Exited err).
Proof.
  apply (malformed_payload_ends_process json_Unmarshal 0 frame_put_malformed
           ("{" +:+ quoted "path" +:+ ":") [frame_cancel] None (watching_world 0)).
  - left. reflexivity.
  - reflexivity.
  - intros m H. vm_compute in H. discriminate H.
Defined.

Lemma put_patch_total_iff_witness :
  ((∃ flow w', scan_body json_Unmarshal 0 frame_put_a5 (watching_world 0)
               = Returned flow w')
   ↔ (∃ payload m path,
        frame_payload frame_put_a5 = Some payload
        ∧ json_Unmarshal payload = (Some m, None)
        ∧ m !! "path" = Some (VString path)))
  ∧ (List.length (strings.Split frame_put_a5 NL) = 1%nat →
     scan_body json_Unmarshal 0 frame_put_a5 (watching_world 0)
     = Panicked (IndexOutOfRange 1 1))
  ∧ (∀ payload data,
       frame_payload frame_put_a5 = Some payload →
       json_Unmarshal payload = (data, None) →
       (∀ path, map_index data "path" ≠ VString path) →
       scan_body json_Unmarshal 0 frame_put_a5 (watching_world 0)
       = Panicked (InterfaceConversion (map_index data "path"))).
Proof.
  apply (put_patch_total_iff json_Unmarshal 0 frame_put_a5 (watching_world 0)).
  - left. reflexivity.
  - exists {| sent := []; closed := false |}. split; reflexivity.
Defined.

(** The panics of C10 on concrete frames: a put frame cut off after its
    first line, as the tokenizer delivers it at the end of a stream, a
    put frame without a path, and a patch frame whose path is a number. *)
Lemma put_patch_panics :
  Tokenizer.eventSplit (list_byte_of_string frame_put_cut) true
  = (10, list_byte_of_string frame_put_cut, None)
  ∧ scan_body json_Unmarshal 0 frame_put_cut (watching_world 0)
    = Panicked (IndexOutOfRange 1 1)
  ∧ scan_body json_Unmarshal 0 frame_put_no_path (watching_world 0)
    = Panicked (InterfaceConversion VNil)
  ∧ scan_body json_Unmarshal 0 frame_patch_numeric_path (watching_world 0)
    = Panicked (InterfaceConversion (VFloat64 1)).
Proof. repeat split; vm_compute; reflexivity. Qed.

(** * Further properties *)

(** ** The tokenizer, completely *)

Section TokenizerMore.

Import Tokenizer.

Lemma first_boundary_Some (data : list byte) :
  ∀ i, first_boundary data = Some i →
       boundary_at data i ∧ ∀ j, (j < i)%nat → ¬ boundary_at data j.
Proof.
  induction data as [|b data IH]; intros i; [done|].
  destruct data as [|b' data]; [done|].
  change (first_boundary (b :: b' :: data))
    with (if Byte.eqb b newline && Byte.eqb b' newline then Some 0%nat
          else S <$> first_boundary (b' :: data)).
  destruct (Byte.eqb b newline && Byte.eqb b' newline) eqn:Hbb.
  - intros [= <-]. apply andb_true_iff in Hbb as [->%newline_eqb ->%newline_eqb].
    split; [done | intros j Hj; lia].
  - destruct (first_boundary (b' :: data)) as [i'|] eqn:Hi'; [|done].
    intros [= <-]. destruct (IH i' eq_refl) as [Hb Hfirst].
    split; [exact Hb|].
    intros [|j] Hj.
    + intros [[= ->] [= ->]]. done.
    + intros Hbj. apply (Hfirst j); [lia | exact Hbj].
Qed.

Lemma first_boundary_None (data : list byte) :
  first_boundary data = None → ∀ i, ¬ boundary_at data i.
Proof.
  induction data as [|b data IH]; [by intros _ i [H _]|].
  destruct data as [|b' data]; [by intros _ i [_ H]|].
  change (first_boundary (b :: b' :: data))
    with (if Byte.eqb b newline && Byte.eqb b' newline then Some 0%nat
          else S <$> first_boundary (b' :: data)).
  destruct (Byte.eqb b newline && Byte.eqb b' newline) eqn:Hbb; [done|].
  destruct (first_boundary (b' :: data)) as [i'|] eqn:Hi'; [done|].
  intros _ [|i].
  - intros [[= ->] [= ->]]. done.
  - intros Hbi. by apply (IH eq_refl i).
Qed.

(** X1. [eventSplit] cuts after the first blank line: with the first
    pair of consecutive newlines at offsets [i], [i+1] it returns the
    first [i+2] bytes and consumes as many; without such a pair it
    returns and consumes everything. It does so whatever [atEOF] is and
    however many blank lines follow. *)
Theorem eventSplit_first_boundary (data : list byte) (atEOF : bool) :
  eventSplit data atEOF
  = match first_boundary data with
    | Some i => (Z.of_nat (i + 2), take (i + 2)%nat data, None)
    | None => (Z.of_nat (List.length data), data, None)
    end.
Proof.
  unfold eventSplit. destruct (first_boundary data) as [i|] eqn:Hi.
  - apply first_boundary_Some in Hi as [Hb Hfirst].
    by rewrite (eventSplit_range_first data i).
  - by rewrite eventSplit_range_whole; [| | apply first_boundary_None].
Qed.

Lemma boundary_lt (data : list byte) (i : nat) :
  boundary_at data i → (i + 2 ≤ List.length data)%nat.
Proof. intros [_ H%lookup_lt_Some]. lia. Qed.

(** X2. The token is always a prefix of the input and [advance] is its
    length; nothing is consumed only when the input is empty, so a
    scanner that calls [eventSplit] with unread bytes always moves on. *)
Theorem eventSplit_prefix (data : list byte) (atEOF : bool) :
  ∃ n : nat,
    eventSplit data atEOF = (Z.of_nat n, take n data, None)
    ∧ (n ≤ List.length data)%nat
    ∧ List.length (take n data) = n
    ∧ (n = 0%nat ↔ data = []).
Proof.
  rewrite eventSplit_first_boundary.
  destruct (first_boundary data) as [i|] eqn:Hi.
  - apply first_boundary_Some in Hi as [Hb%boundary_lt _].
    exists (i + 2)%nat. split; [done|]. split; [done|].
    split; [rewrite length_take; lia|].
    split; [lia|]. intros ->. simpl in Hb. lia.
  - exists (List.length data). rewrite firstn_all. split; [done|].
    split; [done|]. split; [done|]. by destruct data.
Qed.

(** X3. A token never holds a blank line except as its last two bytes,
    and a token that is shorter than the input does end in one. *)
Theorem eventSplit_token_shape (data : list byte) (atEOF : bool) :
  let token := (eventSplit data atEOF).1.2 in
  (∀ i, boundary_at token i → (i + 2)%nat = List.length token)
  ∧ ((List.length token < List.length data)%nat →
     boundary_at token (List.length token - 2)).
Proof.
  rewrite eventSplit_first_boundary.
  destruct (first_boundary data) as [i|] eqn:Hi; simpl.
  - apply first_boundary_Some in Hi as [Hb Hfirst].
    pose proof (boundary_lt _ _ Hb) as Hlen.
    assert (Htok : List.length (take (i + 2)%nat data) = (i + 2)%nat)
      by (rewrite length_take; lia).
    assert (Hin : ∀ j, boundary_at (take (i + 2)%nat data) j →
                       boundary_at data j ∧ (j + 2 ≤ i + 2)%nat).
    { intros j Hj. pose proof (boundary_lt _ _ Hj) as Hjl. rewrite Htok in Hjl.
      destruct Hj as [H1 H2].
      rewrite lookup_take_lt in H1 by lia. rewrite lookup_take_lt in H2 by lia.
      done. }
    split.
    + intros j Hj. destruct (Hin j Hj) as [Hdj Hle]. rewrite Htok.
      destruct (decide (j < i)%nat) as [Hlt|]; [by destruct (Hfirst j Hlt) | lia].
    + intros _. rewrite Htok. replace (i + 2 - 2)%nat with i by lia.
      destruct Hb as [H1 H2]. split; rewrite lookup_take_lt by lia; done.
  - split; [|lia].
    intros i Hb. by destruct (first_boundary_None data Hi i).
Qed.

Lemma eventSplit_range_line (line : list byte) :
  ∀ rest token advance found,
    Forall (λ b, b ≠ newline) line →
    eventSplit_range (line ++ rest) token advance found
    = eventSplit_range rest (token ++ line)
        (advance + Z.of_nat (List.length line))
        (match line with [] => found | _ => false end).
Proof.
  induction line as [|b line IH]; intros rest token advance found Hline.
  - simpl. by rewrite app_nil_r, Z.add_0_r.
  - apply Forall_cons in Hline as [Hb Hline]. simpl.
    destruct (Byte.eqb b newline) eqn:Heq; [by apply newline_eqb in Heq|].
    rewrite IH by done. f_equal; [by rewrite <- app_assoc | lia | by destruct line].
Qed.

Lemma eventSplit_range_newline (rest token : list byte) (advance : Z) :
  eventSplit_range (newline :: rest) token advance false
  = eventSplit_range rest (token ++ [newline]) (advance + 1) true.
Proof. reflexivity. Qed.

Lemma eventSplit_range_lines (lines : list (list byte)) :
  ∀ rest token advance found,
    lines ≠ [] → Forall wire_line lines →
    eventSplit_range (List.concat (map (λ line, line ++ [newline]) lines) ++ rest)
      token advance found
    = eventSplit_range rest
        (token ++ List.concat (map (λ line, line ++ [newline]) lines))
        (advance + Z.of_nat (List.length (List.concat (map (λ line, line ++ [newline]) lines))))
        true.
Proof.
  induction lines as [|line lines IH]; intros rest token advance found Hne Hall; [done|].
  apply Forall_cons in Hall as [[Hline Hfree] Hall]. simpl.
  rewrite <- !app_assoc, eventSplit_range_line by done.
  destruct line as [|b line]; [done|].
  change ([newline] ++ ?x) with (newline :: x).
  rewrite eventSplit_range_newline.
  destruct lines as [|line' lines].
  - cbn [map List.concat]. rewrite ?app_nil_r. cbn [app].
    f_equal; [by rewrite <- ?app_assoc|].
    repeat (rewrite ?length_app; simpl). lia.
  - rewrite IH by done. cbn [map List.concat].
    f_equal; [by rewrite <- ?app_assoc|].
    repeat (rewrite ?length_app; simpl). lia.
Qed.

(** X4. A frame as the server writes it, one or more non-empty lines
    closed by a blank line, is returned whole and alone, whatever
    follows it in the buffer. *)
Theorem eventSplit_wire_frame (lines : list (list byte)) (more : list byte)
    (atEOF : bool) :
  lines ≠ [] → Forall wire_line lines →
  eventSplit (frame_bytes lines ++ more) atEOF
  = (Z.of_nat (List.length (frame_bytes lines)), frame_bytes lines, None).
Proof.
  intros Hne Hall. unfold eventSplit, frame_bytes.
  rewrite <- !app_assoc, eventSplit_range_lines by done.
  simpl. rewrite length_app. simpl. do 2 f_equal. lia.
Qed.

End TokenizerMore.

(** ** Frames as text *)

Section WireText.

Import strings.

Lemma prefix_empty (s : string) : String.prefix "" s = true.
Proof. by destruct s. Qed.

Lemma prefix_append (p s : string) : String.prefix p (p +:+ s) = true.
Proof.
  induction p as [|a p IH]; [apply prefix_empty|].
  simpl. by destruct (Ascii.ascii_dec a a).
Qed.

Lemma Index_NL_cons (c : ascii) (s : string) :
  Index (String c s) NL
  = if Ascii.ascii_dec (ascii_of_byte newline) c then Some 0%nat
    else S <$> Index s NL.
Proof.
  rewrite Index_eq.
  assert (String.prefix NL (String c s)
          = if Ascii.ascii_dec (ascii_of_byte newline) c then true else false) as ->.
  { unfold NL. cbn [String.prefix].
    destruct (Ascii.ascii_dec _ c); [apply prefix_empty | done]. }
  by destruct (Ascii.ascii_dec _ c).
Qed.

Lemma Index_NL_append_None (a b : string) :
  Index a NL = None → Index b NL = None → Index (a +:+ b) NL = None.
Proof.
  intros Ha Hb. induction a as [|c a IH]; [done|].
  change (String c a +:+ b) with (String c (a +:+ b)).
  rewrite Index_NL_cons in Ha |- *.
  destruct (Ascii.ascii_dec _ c); [done|].
  destruct (Index a NL); [done|]. by rewrite IH.
Qed.

(** The first newline of a text is the one that closes its first line. *)
Lemma Index_NL_line (a r : string) :
  Index a NL = None → Index (a +:+ NL +:+ r) NL = Some (String.length a).
Proof.
  induction a as [|c a IH]; intros Ha.
  - change ("" +:+ NL +:+ r) with (String (ascii_of_byte newline) r).
    rewrite Index_NL_cons. by destruct (Ascii.ascii_dec _ _).
  - change (String c a +:+ NL +:+ r) with (String c (a +:+ NL +:+ r)).
    rewrite Index_NL_cons in Ha |- *.
    destruct (Ascii.ascii_dec _ c); [done|].
    destruct (Index a NL); [done|]. by rewrite IH.
Qed.

Lemma upto_append (a r : string) : upto (String.length a) (a +:+ r) = a.
Proof.
  induction a as [|c a IH]; [by destruct r|].
  change (String c (upto (String.length a) (a +:+ r)) = String c a).
  by rewrite IH.
Qed.

Lemma from_append (a r : string) (k : nat) :
  from (String.length a + k) (a +:+ r) = from k r.
Proof. induction a as [|c a IH]; simpl; done. Qed.

Lemma append_assoc (a b c : string) : (a +:+ b) +:+ c = a +:+ b +:+ c.
Proof.
  induction a as [|x a IH]; [reflexivity|].
  change (String x ((a +:+ b) +:+ c) = String x (a +:+ b +:+ c)).
  by rewrite IH.
Qed.

Lemma NL_nonempty : NL ≠ "".
Proof. done. Qed.

Lemma Split_line (a r : string) :
  Index a NL = None → Split (a +:+ NL +:+ r) NL = a :: Split r NL.
Proof.
  intros Ha. rewrite (Split_cut _ NL (String.length a) NL_nonempty (Index_NL_line a r Ha)).
  rewrite upto_append, from_append. done.
Qed.

(** Stripping a marker that opens the line gives the rest of the line. *)
Lemma Replace_marker (old s : string) :
  old ≠ "" → Replace (old +:+ s) old "" 1 = s.
Proof.
  intros Hold. unfold Replace.
  destruct (String.eqb old "") eqn:Heq; [by apply String.eqb_eq in Heq|].
  cbn [Replace_loop]. change (1 =? 0) with false. cbv iota.
  rewrite Index_eq, prefix_append.
  change (upto 0 (old +:+ s)) with "".
  change (0 + String.length old)%nat with (String.length old).
  pose proof (from_append old s 0) as Hfrom.
  rewrite Nat.add_0_r in Hfrom. cbn [from] in Hfrom. rewrite Hfrom.
  change (1 - 1) with 0.
  by destruct (String.length (old +:+ s)).
Qed.

Lemma frame_type_wire_frame (ty payload : string) :
  Index ty NL = None → frame_type (wire_frame ty payload) = ty.
Proof.
  intros Hty. unfold frame_type, wire_frame.
  rewrite <- (append_assoc "event: " ty), Split_line
    by (by apply Index_NL_append_None).
  by apply Replace_marker.
Qed.

Lemma frame_payload_wire_frame (ty payload : string) :
  Index ty NL = None → Index payload NL = None →
  frame_payload (wire_frame ty payload) = Some payload.
Proof.
  intros Hty Hpay. unfold frame_payload, wire_frame.
  rewrite <- (append_assoc "event: " ty), Split_line
    by (by apply Index_NL_append_None).
  rewrite <- (append_assoc "data: " payload), Split_line
    by (by apply Index_NL_append_None).
  simpl lookup. f_equal. by apply Replace_marker.
Qed.

Lemma frame_type_wire_bare (ty : string) :
  Index ty NL = None → frame_type (wire_bare ty) = ty.
Proof.
  intros Hty. unfold frame_type, wire_bare.
  rewrite <- (append_assoc "event: " ty), Split_line
    by (by apply Index_NL_append_None).
  by apply Replace_marker.
Qed.

Lemma frame_payload_wire_bare (ty : string) :
  Index ty NL = None → frame_payload (wire_bare ty) = Some "".
Proof.
  intros Hty. unfold frame_payload, wire_bare.
  rewrite <- (append_assoc "event: " ty), Split_line
    by (by apply Index_NL_append_None).
  reflexivity.
Qed.

(** X5. Reading back what the server writes: for a type and a payload
    without newline, the loop derives exactly that type from the first
    line and exactly that payload from the second. A frame without
    payload line has its type read back as well, and the empty text as
    its second line. *)
Theorem wire_frame_read_back (ty payload : string) :
  Index ty NL = None → Index payload NL = None →
  frame_type (wire_frame ty payload) = ty
  ∧ frame_payload (wire_frame ty payload) = Some payload
  ∧ frame_type (wire_bare ty) = ty
  ∧ frame_payload (wire_bare ty) = Some "".
Proof.
  intros Hty Hpay.
  split; [by apply frame_type_wire_frame|].
  split; [by apply frame_payload_wire_frame|].
  split; [by apply frame_type_wire_bare | by apply frame_payload_wire_bare].
Qed.

Variable unmarshal : string → GoMap * option error.

(** X6. A put or patch frame on the wire whose payload decodes to an
    object with a string under path is forwarded as one event: the type
    of the frame, that path, and the value under data, which is nil
    when the object has no such key. The loop goes on. *)
Theorem wire_frame_forwarded (c : nat) (ty payload path : string)
    (m : gmap string Value) (w : World) (ch : Chan) :
  ty = "put" ∨ ty = "patch" →
  Index payload NL = None →
  unmarshal payload = (Some m, None) →
  m !! "path" = Some (VString path) →
  chans w !! c = Some ch → closed ch = false →
  scan_body unmarshal c (wire_frame ty payload) w
  = Returned NextScan
      (set_chan c {| sent := sent ch ++ [{| Type_ := ty; Path := path;
                                           Data := default VNil (m !! "data") |}];
                     closed := false |} w).
Proof.
  intros Hty Hpay Hun Hpath Hc Hopen.
  assert (Hnl : Index ty NL = None) by (by destruct Hty as [-> | ->]).
  rewrite (scan_body_put_patch unmarshal c _ payload path (Some m) w ch);
    rewrite ?frame_type_wire_frame; try done.
  - by apply frame_payload_wire_frame.
  - simpl. by rewrite Hpath.
Qed.

(** X7. A put or patch frame without payload line has the empty text
    decoded in place of a payload; when the decoder rejects the empty
    text, as [json.Unmarshal] does, the process exits. *)
Theorem wire_bare_put_exits (c : nat) (ty : string) (data : GoMap) (err : error)
    (w : World) :
  ty = "put" ∨ ty = "patch" →
  unmarshal "" = (data, Some err) →
  scan_body unmarshal c (wire_bare ty) w = Exited err.
Proof.
  intros Hty Hun.
  assert (Hnl : Index ty NL = None) by (by destruct Hty as [-> | ->]).
  rewrite scan_body_eq. simpl.
  rewrite (frame_type_wire_bare ty Hnl), (frame_payload_wire_bare ty Hnl).
  assert (String.eqb ty "put" || String.eqb ty "patch" = true) as ->
    by (by destruct Hty as [-> | ->]).
  by rewrite Hun.
Qed.

End WireText.

(** ** What the read loop does to the world *)

Section LoopEffects.

Variable unmarshal : string → GoMap * option error.

(** One round either leaves the world alone or appends one event, of
    type put, patch or cancel, to the open consumer channel; only a
    cancel frame leaves the loop. *)
Lemma scan_body_effect (c : nat) (text : string) (w w' : World) (flow : Flow) :
  scan_body unmarshal c text w = Returned flow w' →
  (w' = w ∧ flow = NextScan)
  ∨ (∃ ch e, chans w !! c = Some ch ∧ closed ch = false
             ∧ w' = set_chan c {| sent := sent ch ++ [e]; closed := false |} w
             ∧ ((Type_ e = "put" ∨ Type_ e = "patch") ∧ flow = NextScan
                ∨ e = bare_event "cancel" ∧ flow = BreakScanning
                  ∧ frame_type text = "cancel")).
Proof.
  rewrite scan_body_eq. simpl. unfold bind, chan_send, ret, panic, log_Fatal.
  destruct (String.eqb (frame_type text) "put" || String.eqb (frame_type text) "patch")
    eqn:Hsw.
  - destruct (frame_payload text) as [payload|]; [|done].
    destruct (unmarshal payload) as [data [err|]]; [done|].
    destruct (map_index data "path") as [| | |path| |]; try done.
    destruct (chans w !! c) as [ch|]; [|done].
    destruct (closed ch) eqn:Hopen; [done|].
    intros [= <- <-]. right. eexists ch, _. repeat split; try done.
    left. split; [|done]. simpl.
    apply orb_true_iff in Hsw as [H%String.eqb_eq | H%String.eqb_eq]; auto.
  - destruct (String.eqb (frame_type text) "keep-alive"); [intros [= <- <-]; by left|].
    destruct (String.eqb (frame_type text) "cancel") eqn:Hc.
    + apply String.eqb_eq in Hc.
      destruct (chans w !! c) as [ch|]; [|done].
      destruct (closed ch) eqn:Hopen; [done|].
      intros [= <- <-]. right. eexists ch, _. repeat split; try done.
      right. by rewrite Hc.
    + intros [= <- <-]. by left.
Qed.

Lemma scan_body_not_blocked (c : nat) (text : string) (w : World) :
  is_Some (chans w !! c) → scan_body unmarshal c text w ≠ Blocked.
Proof.
  intros [ch Hc]. rewrite scan_body_eq. simpl.
  repeat case_match; unfold bind, chan_send, ret, panic, log_Fatal;
    rewrite ?Hc; repeat case_match; done.
Qed.

Lemma scanning_effect (c : nat) (frames : list string) :
  ∀ (w w' : World) (ch : Chan),
    chans w !! c = Some ch →
    scanning unmarshal c frames w = Returned tt w' →
    ∃ evs,
      chans w' !! c = Some {| sent := sent ch ++ evs; closed := closed ch |}
      ∧ (∀ c', c' ≠ c → chans w' !! c' = chans w !! c')
      ∧ (List.length evs ≤ List.length frames)%nat
      ∧ Forall (λ e, Type_ e = "put" ∨ Type_ e = "patch" ∨ e = bare_event "cancel") evs
      ∧ watching w' = watching w ∧ stopWatching w' = stopWatching w
      ∧ bodiesClosed w' = bodiesClosed w ∧ readers w' = readers w
      ∧ logged w' = logged w.
Proof.
  induction frames as [|text frames IH]; intros w w' ch Hc.
  - intros [= <-]. exists []. rewrite app_nil_r. by destruct ch.
  - simpl. unfold bind.
    destruct (scan_body unmarshal c text w) as [flow w1| | |] eqn:Hb; try done.
    apply scan_body_effect in Hb
      as [[-> ->] | (ch0 & e & Hc0 & Hopen & -> & Hkind)].
    + intros (evs & H1 & H2 & H3 & H4)%(IH _ _ ch Hc).
      exists evs. repeat split; try tauto. lia.
    + assert (ch0 = ch) as -> by congruence.
      assert (Hinv : ∀ evs w2,
                 chans w2 !! c
                 = Some {| sent := (sent ch ++ [e]) ++ evs; closed := false |} →
                 chans w2 !! c
                 = Some {| sent := sent ch ++ e :: evs; closed := closed ch |}).
      { intros evs w2 ->. by rewrite <- app_assoc, Hopen. }
      destruct Hkind as [[Hty ->] | (-> & -> & _)].
      * intros (evs & H1 & H2 & H3 & H4 & H5)%(IH _ _ _ (chans_set_chan_eq _ _ _)).
        exists (e :: evs). split; [by apply Hinv|].
        split; [intros c' Hne; rewrite H2 by done; by apply chans_set_chan_ne|].
        split; [simpl; lia|].
        split; [apply Forall_cons; split; [tauto | done]|]. done.
      * intros [= <-]. exists [bare_event "cancel"].
        split; [apply (Hinv [] _); rewrite app_nil_r; apply chans_set_chan_eq|].
        split; [intros c' Hne; by apply chans_set_chan_ne|].
        split; [simpl; lia|].
        split; [apply Forall_cons; split; [tauto | done]|]. done.
Qed.

Lemma scanning_not_blocked (c : nat) (frames : list string) :
  ∀ w, is_Some (chans w !! c) → scanning unmarshal c frames w ≠ Blocked.
Proof.
  induction frames as [|text frames IH]; intros w Hc; [done|].
  simpl. unfold bind.
  destruct (scan_body unmarshal c text w) as [flow w1| | |] eqn:Hb; try done.
  - destruct flow; [|done]. apply IH.
    apply scan_body_effect in Hb as [[-> _] | (ch & e & _ & _ & -> & _)]; [done|].
    rewrite chans_set_chan_eq. eauto.
  - by apply scan_body_not_blocked in Hb.
Qed.

(** X8. Whenever the loop over any frames is left normally, all it did
    to the world is append events to the consumer channel it was given:
    at most one per frame, each of type put or patch or the bare cancel
    event. It closes nothing, touches no other channel, and leaves the
    flag, the stop queue, the bodies and the log as they were. *)
Theorem scanning_only_appends (c : nat) (frames : list string) (w w' : World)
    (ch : Chan) :
  chans w !! c = Some ch →
  scanning unmarshal c frames w = Returned tt w' →
  ∃ evs,
    chans w' !! c = Some {| sent := sent ch ++ evs; closed := closed ch |}
    ∧ (∀ c', c' ≠ c → chans w' !! c' = chans w !! c')
    ∧ (List.length evs ≤ List.length frames)%nat
    ∧ Forall (λ e, Type_ e = "put" ∨ Type_ e = "patch" ∨ e = bare_event "cancel") evs
    ∧ watching w' = watching w ∧ stopWatching w' = stopWatching w
    ∧ bodiesClosed w' = bodiesClosed w ∧ readers w' = readers w
    ∧ logged w' = logged w.
Proof. apply scanning_effect. Qed.

Lemma scan_body_cancel_eq (c : nat) (text : string) (w : World) :
  frame_type text = "cancel" →
  scan_body unmarshal c text w
  = (run chan_send c (bare_event "cancel"); ret BreakScanning) w.
Proof. intros Hty. rewrite scan_body_eq. simpl. by rewrite Hty. Qed.

(** X9. Nothing after a cancel frame is looked at: the loop over a
    cancel frame followed by any frames, well-formed or not, ends as the
    loop over the cancel frame alone. *)
Theorem cancel_ends_scanning (c : nat) (text : string) (frames : list string)
    (w : World) :
  frame_type text = "cancel" →
  scanning unmarshal c (text :: frames) w = scanning unmarshal c [text] w.
Proof.
  intros Hty. cbn [scanning]. unfold bind.
  rewrite scan_body_cancel_eq by done. unfold bind, ret.
  by destruct (chan_send c (bare_event "cancel") w).
Qed.

Lemma scan_body_break (c : nat) (text : string) (w w' : World) :
  scan_body unmarshal c text w = Returned BreakScanning w' →
  frame_type text = "cancel".
Proof.
  intros [[_ [=]] | (ch & e & _ & _ & _ & [[_ [=]] | (_ & _ & Hty)])]%scan_body_effect.
  exact Hty.
Qed.

(** X10. Frames are handled strictly in order: as long as the first
    batch holds no cancel frame, the loop over two batches is the loop
    over the first followed by the loop over the second. *)
Theorem scanning_app (c : nat) (frames1 frames2 : list string) (w : World) :
  Forall (λ text, frame_type text ≠ "cancel") frames1 →
  scanning unmarshal c (frames1 ++ frames2) w
  = (run scanning unmarshal c frames1; scanning unmarshal c frames2) w.
Proof.
  revert w. induction frames1 as [|text frames1 IH]; intros w Hno; [done|].
  apply Forall_cons in Hno as [Htext Hno].
  change ((text :: frames1) ++ frames2) with (text :: (frames1 ++ frames2)).
  cbn [scanning]. unfold bind.
  destruct (scan_body unmarshal c text w) as [flow w1| | |] eqn:Hb; try done.
  destruct flow; [by apply (IH w1)|].
  by apply scan_body_break in Hb.
Qed.

(** X11. Whenever the goroutine runs to its end, it has closed the
    consumer channel, the flag is false, and the log has grown by one
    line exactly when the scanner reported an error. *)
Theorem reader_returns (c : nat) (frames : list string) (scanErr : option error)
    (w w' : World) :
  reader unmarshal c frames scanErr w = Returned tt w' →
  (∃ ch', chans w' !! c = Some ch' ∧ closed ch' = true)
  ∧ watching w' = false
  ∧ logged w'
    = logged w ++ match scanErr with
                  | Some err => ["Error: " +:+ err +:+ NL]
                  | None => []
                  end.
Proof.
  unfold reader, bind.
  destruct (scanning unmarshal c frames w) as [[] w1| | |] eqn:Hscan; try done.
  destruct (StopWatching w1) as [[] w2| | |] eqn:Hstop; try done.
  unfold chan_close.
  destruct (chans w2 !! c) as [ch2|] eqn:Hc2; [|done].
  destruct (closed ch2); [done|].
  assert (Hlog1 : logged w1 = logged w).
  { revert Hscan. clear. revert w.
    induction frames as [|text frames IH]; intros w; [by intros [= <-]|].
    simpl. unfold bind.
    destruct (scan_body unmarshal c text w) as [flow w0| | |] eqn:Hb; try done.
    assert (logged w0 = logged w) as <-.
    { apply scan_body_effect in Hb as [[-> _] | (? & ? & _ & _ & -> & _)]; done. }
    destruct flow; [apply IH | by intros [= <-]]. }
  assert (Hw2 : watching w2 = false ∧ logged w2 = logged w1).
  { revert Hstop. unfold StopWatching, bind, stopWatching_send.
    destruct (watching w1) eqn:Hon.
    - destruct (stopWatching w1); [done|]. by intros [= <-].
    - by intros [= <-]. }
  destruct Hw2 as [Hoff Hlog2].
  destruct scanErr as [err|]; intros [= <-]; simpl;
    rewrite ?app_nil_r, Hoff, Hlog2, Hlog1;
    (split; [eexists; split; [apply lookup_insert_eq | done] | done]).
Qed.

End LoopEffects.

(** ** Calls one after the other *)

Section Compositions.

Variable makeRequest : string → option (list byte) → result Request.
Variable clientDo : Request → result Response.
Variable unmarshal : string → GoMap * option error.

(** A goroutine whose consumer channel was closed behind its back
    cannot finish: the next send or, at the latest, its own [close]
    panics. *)
Lemma reader_closed_channel (c : nat) (frames : list string)
    (scanErr : option error) (w : World) (ch : Chan) :
  chans w !! c = Some ch → closed ch = true →
  session_ok w →
  ends_process (reader unmarshal c frames scanErr w).
Proof.
  intros Hc Hclosed Hok. unfold reader, bind.
  destruct (scanning unmarshal c frames w) as [[] w1| | |] eqn:Hscan; try done.
  - destruct (scanning_effect unmarshal c frames w w1 ch Hc Hscan)
      as (evs & Hc1 & _ & _ & _ & Hw & Hq & _).
    destruct (StopWatching_returns w1) as (w2 & -> & _ & Hchans & _).
    { unfold session_ok. by rewrite Hw, Hq. }
    unfold chan_close. by rewrite Hchans, Hc1, Hclosed.
  - by apply scanning_not_blocked in Hscan.
Qed.

(** X12. Handing the channel of the running watch to a second call of
    [Watch] closes it under the running goroutine, which then cannot end
    without bringing the process down, whatever frames it still reads. *)
Theorem Watch_same_channel_crashes (c : nat) (w : World) (ch : Chan) :
  watching w = true →
  chans w !! c = Some ch → closed ch = false →
  session_ok w →
  ∃ w', Watch makeRequest clientDo c w = Returned None w'
        ∧ ∀ frames scanErr, ends_process (reader unmarshal c frames scanErr w').
Proof.
  intros Hon Hc Hopen Hok.
  exists (set_chan c {| sent := sent ch; closed := true |} w). split.
  - unfold Watch. rewrite Hon. unfold bind.
    by rewrite (chan_close_open c w ch).
  - intros frames scanErr.
    by apply (reader_closed_channel c frames scanErr _ _ (chans_set_chan_eq _ _ _)).
Qed.

(** X13. While a watch is on, [Watch] does nothing but [close] its
    argument: a channel that is already closed, such as the one a
    previous redundant call was given, makes it panic, and so does the
    nil channel. *)
Theorem Watch_redundant_twice (c : nat) (w : World) :
  watching w = true →
  (∀ ch, chans w !! c = Some ch → closed ch = false →
         ∃ w', Watch makeRequest clientDo c w = Returned None w'
               ∧ Watch makeRequest clientDo c w' = Panicked CloseOfClosedChannel)
  ∧ (chans w !! c = None →
     Watch makeRequest clientDo c w = Panicked CloseOfNilChannel).
Proof.
  intros Hon. split.
  - intros ch Hc Hopen.
    exists (set_chan c {| sent := sent ch; closed := true |} w). split.
    + unfold Watch. rewrite Hon. unfold bind.
      by rewrite (chan_close_open c w ch).
    + unfold Watch. simpl watching. rewrite Hon. unfold bind, chan_close.
      by rewrite chans_set_chan_eq.
  - intros Hc. unfold Watch. rewrite Hon. unfold bind, chan_close.
    by rewrite Hc.
Qed.

(** X14. The clean-up of a goroutine stops whichever watch holds the
    flag: when the flag is set as the read loop ends, the oldest parked
    watcher is woken, the body it guards is closed and the flag is
    reset, also when that watcher belongs to a later watch. *)
Theorem reader_stops_active_watch (c : nat) (frames : list string)
    (scanErr : option error) (w w' : World) (body : nat) (waiting : list nat) :
  reader unmarshal c frames scanErr w = Returned tt w' →
  is_Some (chans w !! c) →
  watching w = true → stopWatching w = body :: waiting →
  body ∈ bodiesClosed w' ∧ stopWatching w' = waiting ∧ watching w' = false.
Proof.
  unfold reader, bind. intros Hret [ch Hc] Hon Hq.
  destruct (scanning unmarshal c frames w) as [[] w1| | |] eqn:Hscan; try done.
  destruct (scanning_effect unmarshal c frames w w1 ch Hc Hscan)
    as (evs & Hc1 & _ & _ & _ & Hw & Hq1 & _).
  rewrite Hon in Hw. rewrite Hq in Hq1.
  unfold StopWatching, bind, stopWatching_send in Hret.
  rewrite Hw, Hq1 in Hret. simpl in Hret.
  unfold chan_close in Hret. simpl in Hret. rewrite Hc1 in Hret.
  destruct (closed ch); [done|]. simpl in Hret.
  destruct scanErr; injection Hret as <-; simpl;
    (split; [apply elem_of_union; left; by apply elem_of_singleton | done]).
Qed.

(** What a successful [Watch] leaves behind. *)
Lemma Watch_started (c : nat) (w w1 : World) :
  watching w = false →
  Watch makeRequest clientDo c w = Returned None w1 →
  ∃ req resp,
    makeRequest "GET" None = Ok req
    ∧ clientDo (Header_Add req "Accept" "text/event-stream") = Ok resp
    ∧ w1 = {| watching := true;
              stopWatching := stopWatching w ++ [Body resp];
              bodiesClosed := bodiesClosed w; chans := chans w;
              readers := readers w ++ [(Body resp, c)];
              logged := logged w |}.
Proof.
  intros Hoff. unfold Watch. rewrite Hoff.
  destruct (makeRequest "GET" None) as [req|err]; [|done].
  destruct (clientDo _) as [resp|err] eqn:Hdo; [|done].
  intros [= <-]. by exists req, resp.
Qed.

(** X15. Stopping a watch: after a successful [Watch] on an idle
    client, [StopWatching] returns with the response body closed, and
    when the goroutine then runs to its end its own clean-up finds the
    flag down and sends nothing more: the consumer channel ends closed,
    holding the events of the frames read, the flag is false and no
    watcher is left parked. *)
Theorem stop_then_reader_ends (c : nat) (frames : list string)
    (scanErr : option error) (w w1 w2 w3 : World) (ch : Chan) :
  watching w = false → stopWatching w = [] →
  chans w !! c = Some ch →
  Watch makeRequest clientDo c w = Returned None w1 →
  StopWatching w1 = Returned tt w2 →
  reader unmarshal c frames scanErr w2 = Returned tt w3 →
  ∃ req resp evs,
    makeRequest "GET" None = Ok req
    ∧ clientDo (Header_Add req "Accept" "text/event-stream") = Ok resp
    ∧ Body resp ∈ bodiesClosed w2
    ∧ bodiesClosed w3 = bodiesClosed w2
    ∧ chans w3 !! c = Some {| sent := sent ch ++ evs; closed := true |}
    ∧ watching w3 = false ∧ stopWatching w3 = [].
Proof.
  intros Hoff Hq Hc Hwatch Hstop Hreader.
  destruct (Watch_started c w w1 Hoff Hwatch) as (req & resp & Hmk & Hdo & ->).
  exists req, resp.
  unfold StopWatching, bind, stopWatching_send in Hstop. simpl in Hstop.
  rewrite Hq in Hstop. simpl in Hstop. injection Hstop as <-.
  unfold reader, bind in Hreader.
  destruct (scanning unmarshal c frames _) as [[] w4| | |] eqn:Hscan; try done.
  apply (scanning_effect unmarshal c frames _ w4 ch) in Hscan
    as (evs & Hc4 & _ & _ & _ & Hw & Hq4 & Hb & _); [|exact Hc].
  simpl in Hw, Hq4, Hb.
  unfold StopWatching in Hreader. rewrite Hw in Hreader.
  unfold chan_close in Hreader. rewrite Hc4 in Hreader.
  destruct (closed ch) eqn:Hopen; [done|].
  exists evs. split; [done|]. split; [done|].
  split; [apply elem_of_union; left; by apply elem_of_singleton|].
  destruct scanErr; injection Hreader as <-; simpl;
    rewrite Hb, Hw, Hq4, lookup_insert_eq; done.
Qed.

Lemma session_tight_ok (w : World) : session_tight w → session_ok w.
Proof.
  unfold session_tight, session_ok. intros Ht Hon. rewrite Hon in Ht.
  by destruct Ht as [body ->].
Qed.

(** X16. The flag and the stop queue stay in step. If the queue holds
    exactly the watcher of the watch that set the flag, and nothing
    when the flag is down, as on a new client, then this is so again
    after [Watch], after [StopWatching] and after a goroutine has run
    to its end; and in such a world [StopWatching] returns. *)
Theorem session_tight_kept (w : World) :
  session_tight w →
  (∀ c r w', Watch makeRequest clientDo c w = Returned r w' → session_tight w')
  ∧ (∃ w', StopWatching w = Returned tt w' ∧ session_tight w')
  ∧ (∀ c frames scanErr w',
       reader unmarshal c frames scanErr w = Returned tt w' → session_tight w').
Proof.
  intros Ht. split; [|split].
  - intros c r w'. unfold Watch, session_tight in *.
    destruct (watching w) eqn:Hon.
    + unfold bind, chan_close. destruct (chans w !! c) as [ch|]; [|done].
      destruct (closed ch); [done|]. simpl. intros [= _ <-]. simpl.
      by rewrite Hon.
    + destruct (makeRequest "GET" None) as [req|e].
      * destruct (clientDo _) as [resp|e].
        -- intros [= _ <-]. simpl. exists (Body resp). by rewrite Ht.
        -- intros [= _ <-]. by rewrite Hon.
      * intros [= _ <-]. by rewrite Hon.
  - unfold StopWatching, session_tight in *. destruct (watching w) eqn:Hon.
    + destruct Ht as [body Hq]. unfold bind, stopWatching_send. rewrite Hq.
      simpl. eexists. split; [done|]. done.
    + exists w. by rewrite Hon.
  - intros c frames scanErr w'. unfold reader, bind.
    destruct (scanning unmarshal c frames w) as [[] w1| | |] eqn:Hscan; try done.
    destruct (StopWatching w1) as [[] w2| | |] eqn:Hstop; try done.
    unfold chan_close. destruct (chans w2 !! c) as [ch2|] eqn:Hc2; [|done].
    destruct (closed ch2); [done|].
    assert (Hw1 : watching w1 = watching w ∧ stopWatching w1 = stopWatching w)
      by (by apply (scanning_session unmarshal c frames)).
    destruct Hw1 as [Hw1 Hq1].
    assert (Ht2 : watching w2 = false ∧ stopWatching w2 = []).
    { revert Hstop. unfold StopWatching, bind, stopWatching_send, session_tight in *.
      rewrite Hw1, Hq1. destruct (watching w) eqn:Hon.
      - destruct Ht as [body ->]. by intros [= <-].
      - intros [= <-]. by rewrite Hw1, Hq1, Ht. }
    destruct Ht2 as [Hoff Hq2].
    unfold session_tight.
    destruct scanErr; intros [= <-]; simpl; by rewrite Hoff.
Qed.

End Compositions.

(** ** The further properties on concrete inputs *)

Lemma eventSplit_wire_frame_witness :
  Tokenizer.eventSplit
    (frame_bytes [list_byte_of_string "event: put"; list_byte_of_string "data: {}"]
     ++ list_byte_of_string "event: keep") false
  = (Z.of_nat (List.length
       (frame_bytes [list_byte_of_string "event: put"; list_byte_of_string "data: {}"])),
     frame_bytes [list_byte_of_string "event: put"; list_byte_of_string "data: {}"],
     None).
Proof.
  apply (eventSplit_wire_frame
           [list_byte_of_string "event: put"; list_byte_of_string "data: {}"]
           (list_byte_of_string "event: keep") false).
  - discriminate.
  - repeat constructor; discriminate.
Defined.

Lemma wire_frame_read_back_witness :
  frame_type (wire_frame "put" payload_a5) = "put"
  ∧ frame_payload (wire_frame "put" payload_a5) = Some payload_a5
  ∧ frame_type (wire_bare "put") = "put"
  ∧ frame_payload (wire_bare "put") = Some "".
Proof.
  apply (wire_frame_read_back "put" payload_a5); reflexivity.
Defined.

Lemma wire_frame_forwarded_witness :
  scan_body json_Unmarshal 0 (wire_frame "patch" payload_a5) (watching_world 0)
  = Returned NextScan
      (set_chan 0
         {| sent := [] ++ [{| Type_ := "patch"; Path := "/a";
                              Data := default VNil
                                        ((<["path" := VString "/a"]>
                                           (<["data" := VFloat64 5]> ∅) : gmap string Value)
                                         !! "data") |}];
            closed := false |} (watching_world 0)).
Proof.
  apply (wire_frame_forwarded json_Unmarshal 0 "patch" payload_a5 "/a"
           (<["path" := VString "/a"]> (<["data" := VFloat64 5]> ∅))
           (watching_world 0) {| sent := []; closed := false |}).
  - right. reflexivity.
  - reflexivity.
  - vm_compute. reflexivity.
  - vm_compute. reflexivity.
  - reflexivity.
  - reflexivity.
Defined.

Lemma wire_bare_put_exits_witness :
  scan_body json_Unmarshal 0 (wire_bare "put") (watching_world 0)
  = Exited "json: syntax error".
Proof.
  apply (wire_bare_put_exits json_Unmarshal 0 "put" None "json: syntax error"
           (watching_world 0)).
  - left. reflexivity.
  - reflexivity.
Defined.

Lemma scanning_only_appends_witness :
  ∃ evs,
    chans (final_world
             (scanning json_Unmarshal 0
                [frame_put_a5; frame_keep_alive; frame_unknown; frame_auth_revoked;
                 frame_cancel; frame_put_malformed] (watching_world 0))) !! 0%nat
    = Some {| sent := [] ++ evs; closed := false |}
    ∧ (∀ c', c' ≠ 0%nat →
         chans (final_world
                  (scanning json_Unmarshal 0
                     [frame_put_a5; frame_keep_alive; frame_unknown; frame_auth_revoked;
                      frame_cancel; frame_put_malformed] (watching_world 0))) !! c'
         = chans (watching_world 0) !! c')
    ∧ (List.length evs ≤ 6)%nat
    ∧ Forall (λ e, Type_ e = "put" ∨ Type_ e = "patch" ∨ e = bare_event "cancel") evs
    ∧ watching (final_world
                  (scanning json_Unmarshal 0
                     [frame_put_a5; frame_keep_alive; frame_unknown; frame_auth_revoked;
                      frame_cancel; frame_put_malformed] (watching_world 0)))
      = watching (watching_world 0)
    ∧ stopWatching (final_world
                      (scanning json_Unmarshal 0
                         [frame_put_a5; frame_keep_alive; frame_unknown;
                          frame_auth_revoked; frame_cancel; frame_put_malformed]
                         (watching_world 0)))
      = stopWatching (watching_world 0)
    ∧ bodiesClosed (final_world
                      (scanning json_Unmarshal 0
                         [frame_put_a5; frame_keep_alive; frame_unknown;
                          frame_auth_revoked; frame_cancel; frame_put_malformed]
                         (watching_world 0)))
      = bodiesClosed (watching_world 0)
    ∧ readers (final_world
                 (scanning json_Unmarshal 0
                    [frame_put_a5; frame_keep_alive; frame_unknown; frame_auth_revoked;
                     frame_cancel; frame_put_malformed] (watching_world 0)))
      = readers (watching_world 0)
    ∧ logged (final_world
                (scanning json_Unmarshal 0
                   [frame_put_a5; frame_keep_alive; frame_unknown; frame_auth_revoked;
                    frame_cancel; frame_put_malformed] (watching_world 0)))
      = logged (watching_world 0).
Proof.
  apply (scanning_only_appends json_Unmarshal 0
           [frame_put_a5; frame_keep_alive; frame_unknown; frame_auth_revoked;
            frame_cancel; frame_put_malformed]
           (watching_world 0) _ {| sent := []; closed := false |}).
  - reflexivity.
  - vm_compute. reflexivity.
Defined.

Lemma cancel_ends_scanning_witness :
  scanning json_Unmarshal 0 (frame_cancel :: [frame_put_malformed; frame_put_cut])
    (watching_world 0)
  = scanning json_Unmarshal 0 [frame_cancel] (watching_world 0).
Proof.
  apply (cancel_ends_scanning json_Unmarshal 0 frame_cancel
           [frame_put_malformed; frame_put_cut] (watching_world 0)).
  reflexivity.
Defined.

Lemma scanning_app_witness :
  scanning json_Unmarshal 0 ([frame_put_a5; frame_keep_alive] ++ [frame_cancel])
    (watching_world 0)
  = (run scanning json_Unmarshal 0 [frame_put_a5; frame_keep_alive];
     scanning json_Unmarshal 0 [frame_cancel]) (watching_world 0).
Proof.
  apply (scanning_app json_Unmarshal 0 [frame_put_a5; frame_keep_alive]
           [frame_cancel] (watching_world 0)).
  repeat constructor; intros H; vm_compute in H; discriminate H.
Defined.

Lemma reader_returns_witness :
  (∃ ch', chans (final_world
                   (reader json_Unmarshal 0 [frame_put_a5; frame_cancel]
                      (Some "unexpected EOF") (watching_world 0))) !! 0%nat
          = Some ch' ∧ closed ch' = true)
  ∧ watching (final_world
                (reader json_Unmarshal 0 [frame_put_a5; frame_cancel]
                   (Some "unexpected EOF") (watching_world 0))) = false
  ∧ logged (final_world
              (reader json_Unmarshal 0 [frame_put_a5; frame_cancel]
                 (Some "unexpected EOF") (watching_world 0)))
    = logged (watching_world 0) ++ ["Error: " +:+ "unexpected EOF" +:+ NL].
Proof.
  apply (reader_returns json_Unmarshal 0 [frame_put_a5; frame_cancel]
           (Some "unexpected EOF") (watching_world 0)).
  vm_compute. reflexivity.
Defined.

Lemma Watch_same_channel_crashes_witness :
  ∃ w', Watch makeRequest_ok clientDo_ok 0 (watching_world 0) = Returned None w'
        ∧ ∀ frames scanErr, ends_process (reader json_Unmarshal 0 frames scanErr w').
Proof.
  apply (Watch_same_channel_crashes makeRequest_ok clientDo_ok json_Unmarshal 0
           (watching_world 0) {| sent := []; closed := false |}).
  - reflexivity.
  - reflexivity.
  - reflexivity.
  - intros _. discriminate.
Defined.

Lemma Watch_redundant_twice_witness :
  (∀ ch, chans (make_chan 1 (watching_world 0)) !! 1%nat = Some ch →
         closed ch = false →
         ∃ w', Watch makeRequest_ok clientDo_ok 1 (make_chan 1 (watching_world 0))
               = Returned None w'
               ∧ Watch makeRequest_ok clientDo_ok 1 w' = Panicked CloseOfClosedChannel)
  ∧ (chans (make_chan 1 (watching_world 0)) !! 1%nat = None →
     Watch makeRequest_ok clientDo_ok 1 (make_chan 1 (watching_world 0))
     = Panicked CloseOfNilChannel).
Proof.
  apply (Watch_redundant_twice makeRequest_ok clientDo_ok 1
           (make_chan 1 (watching_world 0))).
  reflexivity.
Defined.

Lemma reader_stops_active_watch_witness :
  watching second_watch_world = true
  ∧ readers second_watch_world = [(7%nat, 0%nat); (8%nat, 1%nat)]
  ∧ 8%nat ∈ bodiesClosed (final_world
                            (reader json_Unmarshal 0 [] (Some "read on closed body")
                               second_watch_world))
  ∧ stopWatching (final_world
                    (reader json_Unmarshal 0 [] (Some "read on closed body")
                       second_watch_world)) = []
  ∧ watching (final_world
                (reader json_Unmarshal 0 [] (Some "read on closed body")
                   second_watch_world)) = false.
Proof.
  split; [reflexivity|]. split; [reflexivity|].
  apply (reader_stops_active_watch json_Unmarshal 0 [] (Some "read on closed body")
           second_watch_world _ 8%nat []).
  - vm_compute. reflexivity.
  - eexists. reflexivity.
  - reflexivity.
  - reflexivity.
Defined.

Lemma stop_then_reader_ends_witness :
  ∃ req resp evs,
    makeRequest_ok "GET" None = Ok req
    ∧ clientDo_ok (Header_Add req "Accept" "text/event-stream") = Ok resp
    ∧ Body resp ∈ bodiesClosed (final_world (StopWatching (watching_world 0)))
    ∧ bodiesClosed (final_world
                      (reader json_Unmarshal 0 [frame_put_a5] (Some "read on closed body")
                         (final_world (StopWatching (watching_world 0)))))
      = bodiesClosed (final_world (StopWatching (watching_world 0)))
    ∧ chans (final_world
               (reader json_Unmarshal 0 [frame_put_a5] (Some "read on closed body")
                  (final_world (StopWatching (watching_world 0))))) !! 0%nat
      = Some {| sent := [] ++ evs; closed := true |}
    ∧ watching (final_world
                  (reader json_Unmarshal 0 [frame_put_a5] (Some "read on closed body")
                     (final_world (StopWatching (watching_world 0))))) = false
    ∧ stopWatching (final_world
                      (reader json_Unmarshal 0 [frame_put_a5]
                         (Some "read on closed body")
                         (final_world (StopWatching (watching_world 0))))) = [].
Proof.
  apply (stop_then_reader_ends makeRequest_ok clientDo_ok json_Unmarshal 0
           [frame_put_a5] (Some "read on closed body")
           (make_chan 0 new_world) (watching_world 0) _ _
           {| sent := []; closed := false |}).
  - reflexivity.
  - reflexivity.
  - reflexivity.
  - reflexivity.
  - reflexivity.
  - vm_compute. reflexivity.
Defined.

Lemma session_tight_kept_witness :
  (∀ c r w', Watch makeRequest_ok clientDo_ok c (watching_world 0) = Returned r w' →
             session_tight w')
  ∧ (∃ w', StopWatching (watching_world 0) = Returned tt w' ∧ session_tight w')
  ∧ (∀ c frames scanErr w',
       reader json_Unmarshal c frames scanErr (watching_world 0) = Returned tt w' →
       session_tight w').
Proof.
  apply (session_tight_kept makeRequest_ok clientDo_ok json_Unmarshal (watching_world 0)).
  exists 7%nat. reflexivity.
Defined.
